(** * Morph.io / sarpedon: streaming PCM player and spectrogram sink

    A shallow embedding of [sarpedon/player-processor.js] (the
    AudioWorklet processor holding the frame buffer) and of the message
    handler and spectrogram renderer of [sarpedon/app.js], followed by the
    properties of the playback pipeline.

    JavaScript numbers are IEEE binary64 values and are modelled by Rocq's
    primitive floats; typed arrays are lists with the out-of-range
    behaviour of typed arrays written out; exceptions are an error monad.
    A message posted to the worklet port is handed to the processor's
    handler at once, and [JSON.parse] is a parameter of the text handler. *)

From Stdlib Require Import ZArith Floats Strings.String Strings.Ascii Strings.Byte Lia.
From stdpp Require Import base option list.

(** ** Exceptions *)

Inductive exn : Set :=
  | TypeError        (* property access on undefined or null *)
  | RangeError       (* typed-array construction or copy out of range *)
  | SyntaxError      (* JSON.parse on malformed text *)
  | IndexSizeError.  (* createImageData with a zero dimension *)

Inductive result (A : Type) : Type :=
  | Ok (a : A)
  | Throw (e : exn).
Arguments Ok {A} a.
Arguments Throw {A} e.

#[global] Instance result_ret : MRet result := fun A a => Ok a.
#[global] Instance result_bind : MBind result := fun A B k r =>
  match r with
  | Ok a => k a
  | Throw e => Throw e
  end.

(** [try { body } catch (e) { handler }] for a body that changes a state
    [S]: the handler starts from the state the body had reached when it
    threw. *)
Definition try_catch {S A} (body : S * result A)
    (handler : exn -> S -> S * result A) : S * result A :=
  match body with
  | (s, Ok a) => (s, Ok a)
  | (s, Throw e) => handler e s
  end.

(** Reading a property of a value that may be [undefined]. *)
Definition defined {A} (o : option A) : result A :=
  match o with
  | Some a => Ok a
  | None => Throw TypeError
  end.

(** A [for (let i = 0; i < n; i++)] loop whose body may throw, as a fold
    over the index list. *)
Fixpoint for_each {S} (idx : list nat) (body : nat -> S -> result S) (s : S)
  : result S :=
  match idx with
  | [] => Ok s
  | i :: rest => s' ← body i s; for_each rest body s'
  end.

(** ** JavaScript numbers *)

Module Num.

Local Open Scope Z_scope.

(** An array length or loop counter read as a number.  Lengths and canvas
    dimensions are below 2^32, where the conversion is exact. *)
Definition of_nat (n : nat) : float :=
  PrimFloat.of_uint63 (Uint63.of_Z (Z.of_nat n)).

(** [Math.floor], returning the integer when the argument is finite and
    [None] for NaN and the infinities (which [Math.floor] returns as they
    are, and which name no array element). *)
Definition floor (x : float) : option Z :=
  match Prim2SF x with
  | S754_zero _ => Some 0
  | S754_finite s m e =>
      let n := if s then Z.neg m else Z.pos m in
      Some (if 0 <=? e then n * 2 ^ e else n / 2 ^ (- e))
  | S754_infinity _ | S754_nan => None
  end.

(** [Math.min(a, b)] and [Math.max(a, b)]: NaN if either is NaN, and
    -0 counts as smaller than +0. *)
Definition min (a b : float) : float :=
  if PrimFloat.is_nan a || PrimFloat.is_nan b then PrimFloat.nan
  else if PrimFloat.ltb a b then a
  else if PrimFloat.ltb b a then b
  else if PrimFloat.get_sign a then a else b.

Definition max (a b : float) : float :=
  if PrimFloat.is_nan a || PrimFloat.is_nan b then PrimFloat.nan
  else if PrimFloat.ltb a b then b
  else if PrimFloat.ltb b a then a
  else if PrimFloat.get_sign a then b else a.

(** The conversion applied by a store into a [Uint8ClampedArray]
    (ToUint8Clamp): NaN gives 0, the value is clamped to 0..255 and rounded
    to the nearest integer, ties to even. *)
Definition to_uint8_clamp (x : float) : Z :=
  match Prim2SF x with
  | S754_nan | S754_zero _ => 0
  | S754_infinity s => if s then 0 else 255
  | S754_finite true _ _ => 0
  | S754_finite false m e =>
      if 0 <=? e then Z.min 255 (Z.pos m * 2 ^ e)
      else
        let d := 2 ^ (- e) in
        let q := Z.pos m / d in
        let r := Z.pos m mod d in
        let n := if 2 * r <? d then q
                 else if d <? 2 * r then q + 1
                 else if Z.even q then q else q + 1 in
        Z.min 255 n
  end.

(** The value of an IEEE binary32 bit pattern, as a number. *)
Definition of_f32_bits (w : Z) : float :=
  let s := Z.testbit w 31 in
  let e := Z.land (Z.shiftr w 23) 255 in
  let m := Z.land w 8388607 in
  let mag :=
    if e =? 255 then
      if m =? 0 then S754_infinity s else S754_nan
    else if e =? 0 then
      match m with
      | Z.pos p => S754_finite s p (-149)
      | _ => S754_zero s
      end
    else S754_finite s (Z.to_pos (m + 8388608)) (e - 150) in
  SF2Prim mag.

End Num.

(** ** Typed arrays *)

Module TypedArray.

(** The 32-bit word stored little-endian in four bytes. *)
Definition word_le (b0 b1 b2 b3 : byte) : Z :=
  Z.lor (Z.of_N (Byte.to_N b0))
    (Z.lor (Z.shiftl (Z.of_N (Byte.to_N b1)) 8)
       (Z.lor (Z.shiftl (Z.of_N (Byte.to_N b2)) 16)
              (Z.shiftl (Z.of_N (Byte.to_N b3)) 24))).

(** The elements of a [Float32Array] view over a byte buffer. *)
Fixpoint float32_elements (ab : list byte) : list float :=
  match ab with
  | b0 :: b1 :: b2 :: b3 :: rest =>
      Num.of_f32_bits (word_le b0 b1 b2 b3) :: float32_elements rest
  | _ => []
  end.

(** [new Float32Array(arrayBuffer)]: a view over the whole buffer; the
    constructor throws a RangeError when the byte length is not a multiple
    of the element size. *)
Definition float32_of_buffer (ab : list byte) : result (list float) :=
  if (length ab mod 4 =? 0)%nat then Ok (float32_elements ab)
  else Throw RangeError.

(** [dst.set(src, offset)]: copies [src] into [dst] from [offset] on; a
    RangeError when it does not fit. *)
Definition set {A} (dst src : list A) (offset : nat) : result (list A) :=
  if (length dst <? offset + length src)%nat then Throw RangeError
  else Ok (take offset dst ++ src ++ drop (offset + length src) dst).

(** [a.fill(v)] *)
Definition fill {A} (a : list A) (v : A) : list A := replicate (length a) v.

(** [a.subarray(begin)] *)
Definition subarray {A} (a : list A) (begin : nat) : list A := drop begin a.

(** [a[i] = v] on a typed array: ignored when [i] is out of range. *)
Definition store {A} (a : list A) (i : nat) (v : A) : list A := <[i := v]> a.

(** [a[i]] read as a number: an absent element is [undefined], which a
    numeric store turns into NaN. *)
Definition load (a : list float) (i : nat) : float :=
  match a !! i with
  | Some v => v
  | None => PrimFloat.nan
  end.

End TypedArray.

(** ** player-processor.js *)

Module PlayerProcessor.

(** The samples of a [Float32Array] are held as the numbers they denote. *)
Record t : Type := mk {
  buffer : list float;   (* this.buffer, interleaved samples *)
  readIndex : nat        (* this.readIndex, never read *)
}.

(** The constructor. *)
Definition new : t := {| buffer := []; readIndex := 0 |}.

(** [evt.data] of a message received on the port. *)
Inductive message : Type :=
  | Pcm (buf : list byte)   (* { type: "pcm", buffer: ArrayBuffer } *)
  | NotPcm.                 (* anything else *)

(** The append of lines 14-17, on already decoded samples. *)
Definition append (incoming : list float) (p : t) : result t :=
  let newBuf := replicate (length (buffer p) + length incoming) 0%float in
  newBuf ← TypedArray.set newBuf (buffer p) 0;
  newBuf ← TypedArray.set newBuf incoming (length (buffer p));
  Ok {| buffer := newBuf; readIndex := readIndex p |}.

(** [this.port.onmessage] *)
Definition onmessage (evt : message) (p : t) : result t :=
  match evt with
  | Pcm buf =>
      incoming ← TypedArray.float32_of_buffer buf;
      append incoming p
  | NotPcm => Ok p
  end.

(** The output planes of one output: one typed array per channel. *)
Abbreviation planes := (list (list float)) (only parsing).

(** Lines 28-30: every channel is filled with 0.0. *)
Definition silence (channels : nat) (out : planes) : planes :=
  foldl (fun o ch => alter (fun plane => TypedArray.fill plane 0%float) ch o)
        out (seq 0 channels).

(** Lines 39-41: the inner loop for frame [f], from read position [bi]. *)
Definition write_frame (buf : list float) (channels f : nat)
    (st : planes * nat) : planes * nat :=
  foldl (fun '(o, bi) ch =>
           (alter (fun plane => TypedArray.store plane f (TypedArray.load buf bi)) ch o,
            S bi))
        st (seq 0 channels).

(** Lines 37-42: both loops; returns the planes and the final [bi]. *)
Definition deinterleave (buf : list float) (frames channels : nat)
    (out : planes) : planes * nat :=
  foldl (fun st f => write_frame buf channels f st) (out, 0%nat) (seq 0 frames).

(** [process(inputs, outputs, parameters)].  Returns the planes of
    [outputs[0]] as written, the processor afterwards and the return
    value; reading [outputs[0].length] or [out[0].length] faults when the
    output or its first channel is missing. *)
Definition process (outputs : list planes) (p : t)
  : result (planes * t * bool) :=
  out ← defined (outputs !! 0%nat);
  let channels := length out in
  out0 ← defined (out !! 0%nat);
  let frames := length out0 in
  if (length (buffer p) <? frames * channels)%nat then
    Ok (silence channels out, p, true)
  else
    let '(out', bi) := deinterleave (buffer p) frames channels out in
    let buffer' :=
      if (bi <? length (buffer p))%nat then TypedArray.subarray (buffer p) bi
      else [] in
    Ok (out', {| buffer := buffer'; readIndex := readIndex p |}, true).

End PlayerProcessor.

(** ** app.js *)

Module App.

(** The canvas element with id "spec": its size, whether
    [getContext("2d")] gives a context, and its bitmap as RGBA bytes. *)
Record Canvas : Type := mkCanvas {
  width : nat;
  height : nat;
  has_context : bool;
  bitmap : list Z
}.

(** A spectrogram matrix: an array of rows of numbers. *)
Abbreviation matrix := (list (list float)) (only parsing).

(** The value [JSON.parse] returns, as far as the handler looks into it.
    [JObject type data]: [type] is the string held by field "type" ([None]
    when the field is absent or not a string); [data] is the 2-D numeric
    array held by field "data" ([None] when the field is absent or null).
    Other shapes of "data" are outside this model. *)
Inductive json : Type :=
  | JNull
  | JScalar    (* number, boolean, string or array: [.type] is undefined *)
  | JObject (type : option string) (data : option matrix).

(** [evt.data] of a WebSocket message. *)
Inductive ws_data : Type :=
  | Text (s : string)
  | Binary (ab : list byte)
  | Neither.

(** How the promise returned by the async handler settles. *)
Inductive settled : Type :=
  | Resolved
  | Rejected (e : exn).

Record state : Type := mkState {
  playerNode : option PlayerProcessor.t;  (* undefined until initAudio succeeds *)
  warnings : list string;                 (* console.warn *)
  canvas : option Canvas                  (* document.getElementById("spec") *)
}.

(** [array[i]] for a computed index: [undefined] unless [i] is an integer
    within the array. *)
Definition index {A} (l : list A) (i : option Z) : option A :=
  match i with
  | Some z => if (0 <=? z)%Z then l !! Z.to_nat z else None
  | None => None
  end.

(** Line 94 and line 96: [Math.floor((y / h) * rows)]. *)
Definition nearest (y h rows : nat) : option Z :=
  Num.floor (Num.of_nat y / Num.of_nat h * Num.of_nat rows)%float.

(** Line 98. *)
Definition color (v : float) : float :=
  Num.max 0%float (Num.min 255%float ((v + 80) * 3)%float).

(** Lines 99-103: the four stores into [img.data], a Uint8ClampedArray. *)
Definition put_pixel (data : list Z) (i : nat) (c : float) : list Z :=
  let data := <[i := Num.to_uint8_clamp c]> data in
  let data := <[(i + 1)%nat := 0%Z]> data in
  let data := <[(i + 2)%nat := Num.to_uint8_clamp (255 - c)%float]> data in
  <[(i + 3)%nat := 255%Z]> data.

(** Lines 96-103: the body of the inner loop at pixel (x, y).  Reading
    [matrix[row][col]] faults when [matrix[row]] is undefined; an
    undefined element makes [v + 80] NaN. *)
Definition draw_pixel (m : matrix) (w h cols : nat) (row : option Z) (y x : nat)
    (data : list Z) : result (list Z) :=
  let col := nearest x w cols in
  line ← defined (index m row);
  let v := match index line col with
           | Some v => v
           | None => PrimFloat.nan
           end in
  let c := color v in
  let i := ((y * w + x) * 4)%nat in
  Ok (put_pixel data i c).

(** Lines 93-105. *)
Definition draw_rows (m : matrix) (w h rows cols : nat) (data : list Z)
  : result (list Z) :=
  for_each (seq 0 h)
    (fun y data =>
       let row := nearest y h rows in
       for_each (seq 0 w) (draw_pixel m w h cols row y) data)
    data.

(** [ctx.createImageData(w, h)] *)
Definition createImageData (w h : nat) : result (list Z) :=
  if ((w =? 0) || (h =? 0))%nat then Throw IndexSizeError
  else Ok (replicate (w * h * 4) 0%Z).

(** [ctx.clearRect(0, 0, w, h)]: transparent black everywhere. *)
Definition clearRect (c : Canvas) : Canvas :=
  mkCanvas (width c) (height c) (has_context c)
           (replicate (width c * height c * 4) 0%Z).

(** [ctx.putImageData(img, 0, 0)] for an image of the canvas's size. *)
Definition putImageData (c : Canvas) (data : list Z) : Canvas :=
  mkCanvas (width c) (height c) (has_context c) data.

(** Lines 89-105, after the canvas was cleared: the image to put. *)
Definition render (m : option matrix) (w h : nat) : result (list Z) :=
  m ← defined m;                          (* matrix.length *)
  let rows := length m in
  row0 ← defined (m !! 0%nat);            (* matrix[0].length *)
  let cols := length row0 in
  img ← createImageData w h;
  draw_rows m w h rows cols img.

(** [drawSpectrogram(matrix)]: the canvas afterwards, and how the call
    ended. *)
Definition drawSpectrogram (m : option matrix) (cv : option Canvas)
  : option Canvas * result unit :=
  match cv with
  | None => (None, Ok tt)                               (* if (!canvas) return *)
  | Some c =>
      if has_context c then
        let c1 := clearRect c in
        match render m (width c) (height c) with
        | Ok data => (Some (putImageData c1 data), Ok tt)
        | Throw e => (Some c1, Throw e)
        end
      else (Some c, Throw TypeError)                    (* null.clearRect *)
  end.

(** Lines 60-63: the two-byte header test. *)
Definition is_opus (ab : list byte) : bool :=
  if (2 <=? length ab)%nat then
    match ab with
    | b0 :: b1 :: _ =>
        String.eqb
          (String (ascii_of_byte b0) EmptyString ++ String (ascii_of_byte b1) EmptyString)
          "OP"
    | _ => false
    end
  else false.

(** The two ways the binary branch goes. *)
Inductive chunk_class : Set := Unsupported | RawPcm.

Definition classify (ab : list byte) : chunk_class :=
  if is_opus ab then Unsupported else RawPcm.

Definition opus_warning : string :=
  "Received Opus packet - decoder not implemented in UI".

(** [port.postMessage(msg, transfer)]: the message is handed to the
    processor's [onmessage]; a fault inside that handler stays in the
    worklet and leaves the processor as it was. *)
Definition postMessage (msg : PlayerProcessor.message) (node : PlayerProcessor.t)
  : PlayerProcessor.t :=
  match PlayerProcessor.onmessage msg node with
  | Ok node' => node'
  | Throw _ => node
  end.

(** Lines 73-75: the raw PCM path.  [floatBuf.buffer] is [ab] itself. *)
Definition post_pcm (ab : list byte) (st : state) : result state :=
  floatBuf ← TypedArray.float32_of_buffer ab;
  node ← defined (playerNode st);                       (* playerNode.port *)
  Ok (mkState (Some (postMessage (PlayerProcessor.Pcm ab) node))
              (warnings st) (canvas st)).

(** Lines 57-76: the binary branch. *)
Definition on_binary (ab : list byte) (st : state) : result state :=
  match classify ab with
  | Unsupported =>
      Ok (mkState (playerNode st) (warnings st ++ [opus_warning]) (canvas st))
  | RawPcm => post_pcm ab st
  end.

Section Handler.

(** [JSON.parse], a built-in: any function from text to a value or a
    SyntaxError. *)
Variable JSON_parse : string -> result json.

(** Lines 46-49: the body of the [try] block; the canvas afterwards and
    how the block ended. *)
Definition text_body (s : string) (cv : option Canvas)
  : option Canvas * result unit :=
  match JSON_parse s with
  | Throw e => (cv, Throw e)
  | Ok JNull => (cv, Throw TypeError)                   (* null.type *)
  | Ok JScalar => (cv, Ok tt)
  | Ok (JObject type data) =>
      match type with
      | Some t => if String.eqb t "spectrogram" then drawSpectrogram data cv
                  else (cv, Ok tt)
      | None => (cv, Ok tt)
      end
  end.

(** Lines 44-54: the text branch; the [catch] block is empty.  An
    exception leaving an async function rejects its promise. *)
Definition on_text (s : string) (st : state) : state * settled :=
  let '(cv, r) := try_catch (text_body s (canvas st)) (fun _ cv => (cv, Ok tt)) in
  (mkState (playerNode st) (warnings st) cv,
   match r with
   | Ok _ => Resolved
   | Throw e => Rejected e
   end).

(** [ws.onmessage] *)
Definition onmessage (data : ws_data) (st : state) : state * settled :=
  match data with
  | Text s => on_text s st
  | Binary ab =>
      match on_binary ab st with
      | Ok st' => (st', Resolved)
      | Throw e => (st, Rejected e)
      end
  | Neither => (st, Resolved)
  end.

End Handler.

End App.

(** ** Vocabulary of the statements *)

(** A render request as the audio host issues it: [outputs[0]] exists and
    has [channels] planes, at least one, of [frames] samples each. *)
Definition render_request (outputs : list PlayerProcessor.planes)
    (frames channels : nat) : Prop :=
  ∃ out, outputs !! 0%nat = Some out ∧ length out = channels ∧
         (0 < channels)%nat ∧ Forall (fun plane => length plane = frames) out.

(** What [process] itself reads of its argument: the length of the first
    plane and the number of planes. *)
Definition request_size (outputs : list PlayerProcessor.planes)
  : option (nat * nat) :=
  out ← outputs !! 0%nat;
  out0 ← out !! 0%nat;
  Some (length out0, length out).

(** The samples of a plane set read back in interleaved order. *)
Definition interleave (out : PlayerProcessor.planes) : list float :=
  match out with
  | [] => []
  | plane0 :: _ =>
      concat ((fun f => (fun plane => TypedArray.load plane f) <$> out)
                <$> seq 0 (length plane0))
  end.

(** Appending batches one after the other. *)
Fixpoint append_all (batches : list (list float)) (p : PlayerProcessor.t)
  : result PlayerProcessor.t :=
  match batches with
  | [] => Ok p
  | b :: rest => p' ← PlayerProcessor.append b p; append_all rest p'
  end.

(** Successive render ticks; the planes of each tick are collected. *)
Fixpoint drain_all (ticks : list (list PlayerProcessor.planes))
    (p : PlayerProcessor.t)
  : result (list PlayerProcessor.planes * PlayerProcessor.t) :=
  match ticks with
  | [] => Ok ([], p)
  | outputs :: rest =>
      '(out, p', _) ← PlayerProcessor.process outputs p;
      '(outs, p'') ← drain_all rest p';
      Ok (out :: outs, p'')
  end.

(** The number of samples a list of ticks asks for. *)
Fixpoint requested (ticks : list (list PlayerProcessor.planes)) : nat :=
  match ticks with
  | [] => 0
  | outputs :: rest =>
      match request_size outputs with
      | Some (frames, channels) => frames * channels + requested rest
      | None => requested rest
      end
  end.

(** What the two loops of [process] do to plane [ch]: for each frame of
    [fs] in turn, the sample at [base + f * channels + ch] is stored at
    [f]. *)
Definition filled (buf : list float) (channels ch base : nat) (fs : list nat)
    (plane : list float) : list float :=
  foldl (fun pl f =>
           TypedArray.store pl f (TypedArray.load buf (base + f * channels + ch)))
        plane fs.

(** The planes [process] leaves when the buffer holds enough samples. *)
Definition deinterleaved (buf : list float) (frames : nat)
    (out : PlayerProcessor.planes) : PlayerProcessor.planes :=
  imap (fun ch plane => filled buf (length out) ch 0 (seq 0 frames) plane) out.

(** The four bytes stored for a pixel whose line-98 value is [c]. *)
Definition rgba (c : float) : list Z :=
  [Num.to_uint8_clamp c; 0%Z; Num.to_uint8_clamp (255 - c)%float; 255%Z].

(** The line-98 value at column [x] of a canvas [w] wide, read from the
    matrix row [line]. *)
Definition pixel_color (line : list float) (w cols x : nat) : float :=
  App.color match App.index line (App.nearest x w cols) with
            | Some v => v
            | None => PrimFloat.nan
            end.

(** The bytes of one canvas row drawn from the matrix row [line]. *)
Definition row_pixels (line : list float) (w cols : nat) : list Z :=
  concat ((fun x => rgba (pixel_color line w cols x)) <$> seq 0 w).

(** The ingest of a raw PCM chunk as the specification words it: never an
    error, the complete little-endian floats of the chunk are appended to
    the tail of the frame buffer and a trailing incomplete float is
    dropped. *)
Definition truncating_ingest (JSON_parse : string -> result App.json)
    (ab : list byte) (st : App.state) : Prop :=
  ∃ node,
    App.playerNode st = Some node ∧
    App.onmessage JSON_parse (App.Binary ab) st
    = (App.mkState
         (Some (PlayerProcessor.mk
                  (PlayerProcessor.buffer node ++ TypedArray.float32_elements ab)
                  (PlayerProcessor.readIndex node)))
         (App.warnings st) (App.canvas st),
       App.Resolved).

(** A page whose player node is ready and which has no canvas. *)
Definition ready_page : App.state :=
  App.mkState (Some PlayerProcessor.new) [] None.

(** A parser that accepts nothing, and one that reads every text as a
    spectrogram message with the given matrix. *)
Definition parse_nothing : string -> result App.json :=
  fun _ => Throw SyntaxError.

Definition parse_as_spectrogram (m : list (list float))
  : string -> result App.json :=
  fun _ => Ok (App.JObject (Some "spectrogram"%string) (Some m)).

Ltac solve_request := eexists; repeat split; repeat constructor.

(** ** The processor under a stream of port messages and render ticks *)

(** What reaches the processor, in the order it arrives. *)
Inductive event : Type :=
  | Message (msg : PlayerProcessor.message)
  | Tick (outputs : list (list (list float))).

(** The samples a port message brings: those of a "pcm" message whose
    buffer the [Float32Array] constructor accepts. *)
Definition accepted (msg : PlayerProcessor.message) : list float :=
  match msg with
  | PlayerProcessor.Pcm buf =>
      match TypedArray.float32_of_buffer buf with
      | Ok samples => samples
      | Throw _ => []
      end
  | PlayerProcessor.NotPcm => []
  end.

(** The samples a tick plays: its planes read back interleaved, and none
    when the tick took the silence branch. *)
Definition played (outputs : list (list (list float))) (p : PlayerProcessor.t)
    (out' : list (list float)) : list float :=
  match request_size outputs with
  | Some (frames, channels) =>
      if length (PlayerProcessor.buffer p) <? frames * channels then []
      else interleave out'
  | None => []
  end.

(** The events handled one after the other: the samples played so far and
    the processor afterwards.  A fault in the message handler stays in the
    handler; a fault in [process] ends the run. *)
Fixpoint run (events : list event) (p : PlayerProcessor.t)
  : result (list float * PlayerProcessor.t) :=
  match events with
  | [] => Ok ([], p)
  | Message msg :: rest => run rest (App.postMessage msg p)
  | Tick outputs :: rest =>
      '(out', p', _) ← PlayerProcessor.process outputs p;
      '(s, q) ← run rest p';
      Ok (played outputs p out' ++ s, q)
  end.

(** All samples the messages of a stream bring, in order. *)
Fixpoint received (events : list event) : list float :=
  match events with
  | [] => []
  | Message msg :: rest => accepted msg ++ received rest
  | Tick _ :: rest => received rest
  end.

(** Every tick of the stream is a request as the audio host issues it. *)
Definition host_ticks (events : list event) : Prop :=
  Forall (fun e => match e with
                   | Tick outputs =>
                       ∃ frames channels, render_request outputs frames channels
                   | Message _ => True
                   end) events.

(** A producer matched to the consumer: each round posts one "pcm" buffer
    and then runs one tick. *)
Definition rounds_events (rounds : list (list byte * list (list (list float))))
  : list event :=
  flat_map (fun '(buf, outputs) =>
              [Message (PlayerProcessor.Pcm buf); Tick outputs]) rounds.

(** The buffer of a round holds exactly the samples its tick asks for. *)
Definition matched_round (round : list byte * list (list (list float))) : Prop :=
  ∃ frames channels,
    render_request round.2 frames channels ∧
    length round.1 = 4 * (frames * channels).

(** ** The page under a stream of WebSocket messages *)

(** The messages handled one after the other; how each promise settled is
    not kept. *)
Fixpoint deliver (JSON_parse : string -> result App.json)
    (msgs : list App.ws_data) (st : App.state) : App.state :=
  match msgs with
  | [] => st
  | d :: rest => deliver JSON_parse rest (App.onmessage JSON_parse d st).1
  end.

(** The bytes of the binary messages that take the raw PCM path and have
    a whole number of floats, in arrival order. *)
Fixpoint pcm_bytes (msgs : list App.ws_data) : list byte :=
  match msgs with
  | [] => []
  | App.Binary ab :: rest =>
      match App.classify ab with
      | App.RawPcm =>
          if length ab mod 4 =? 0 then ab ++ pcm_bytes rest else pcm_bytes rest
      | App.Unsupported => pcm_bytes rest
      end
  | _ :: rest => pcm_bytes rest
  end.

(** The number of binary messages classified Unsupported. *)
Fixpoint opus_chunks (msgs : list App.ws_data) : nat :=
  match msgs with
  | [] => 0
  | App.Binary ab :: rest =>
      match App.classify ab with
      | App.Unsupported => S (opus_chunks rest)
      | App.RawPcm => opus_chunks rest
      end
  | _ :: rest => opus_chunks rest
  end.

(** ** app.js: start-up and the socket's life cycle *)

Module Page.

(** What [console.log] and [console.error] receive. *)
Inductive console_entry : Type :=
  | PlayerReady          (* log: "AudioWorklet player ready (sr=...)" *)
  | WorkletUnavailable   (* error: "AudioWorklet unavailable:" *)
  | WsOpen               (* log: "ws open" *)
  | WsClosed             (* log: "ws closed" *)
  | WsError.             (* error: "ws error" *)

(** The page around the message handler: the text of the element with id
    "conn" ([None] when the page has no such element), the console, the
    delays of the [setTimeout(startWS, ...)] calls made so far, and the
    number of sockets [startWS] has created. *)
Record t : Type := mk {
  app : App.state;
  conn : option string;
  console : list console_entry;
  reconnects : list nat;
  sockets : nat
}.

(** What the browser offers: whether the page has an [AudioContext]
    constructor (calling [new] on the missing one is a TypeError), and
    whether [audioCtx.audioWorklet.addModule] succeeds. *)
Record audio_env : Type := mkEnv {
  has_AudioContext : bool;
  module_loads : bool
}.

(** [initAudio()]: the page afterwards and how the promise settles.  The
    constructor call is outside the [try]; a failure of [addModule] is
    caught, reported and ends the function. *)
Definition initAudio (env : audio_env) (pg : t) : t * App.settled :=
  if has_AudioContext env then
    if module_loads env then
      (mk (App.mkState (Some PlayerProcessor.new) (App.warnings (app pg))
                       (App.canvas (app pg)))
          (conn pg) (console pg ++ [PlayerReady]) (reconnects pg) (sockets pg),
       App.Resolved)
    else
      (mk (app pg) (conn pg) (console pg ++ [WorkletUnavailable])
          (reconnects pg) (sockets pg),
       App.Resolved)
  else (pg, App.Rejected TypeError).

(** [startWS()]: a new socket; its handlers are the ones below. *)
Definition startWS (pg : t) : t :=
  mk (app pg) (conn pg) (console pg) (reconnects pg) (S (sockets pg)).

(** The "load" listener: [await initAudio(); startWS();]. *)
Definition on_load (env : audio_env) (pg : t) : t * App.settled :=
  match initAudio env pg with
  | (pg', App.Resolved) => (startWS pg', App.Resolved)
  | (pg', App.Rejected e) => (pg', App.Rejected e)
  end.

(** [ws.onopen]: writing [textContent] of a missing element faults. *)
Definition onopen (pg : t) : t * result unit :=
  match conn pg with
  | None => (pg, Throw TypeError)
  | Some _ =>
      (mk (app pg) (Some "Connected"%string) (console pg ++ [WsOpen])
          (reconnects pg) (sockets pg),
       Ok tt)
  end.

(** [ws.onclose]: the reconnect is scheduled last. *)
Definition onclose (pg : t) : t * result unit :=
  match conn pg with
  | None => (pg, Throw TypeError)
  | Some _ =>
      (mk (app pg) (Some "Disconnected"%string) (console pg ++ [WsClosed])
          (reconnects pg ++ [1000]) (sockets pg),
       Ok tt)
  end.

(** [ws.onerror] *)
Definition onerror (pg : t) : t :=
  mk (app pg) (conn pg) (console pg ++ [WsError]) (reconnects pg) (sockets pg).

(** What a socket reports. *)
Inductive ws_event : Type :=
  | Open
  | Close
  | Error
  | Incoming (data : App.ws_data).

(** One event handled; an exception leaving a handler is reported by the
    browser and goes no further. *)
Definition handle (JSON_parse : string -> result App.json) (ev : ws_event)
    (pg : t) : t :=
  match ev with
  | Open => (onopen pg).1
  | Close => (onclose pg).1
  | Error => onerror pg
  | Incoming data =>
      mk (App.onmessage JSON_parse data (app pg)).1 (conn pg) (console pg)
         (reconnects pg) (sockets pg)
  end.

Definition handle_all (JSON_parse : string -> result App.json)
    (evs : list ws_event) (pg : t) : t :=
  foldl (fun pg ev => handle JSON_parse ev pg) pg evs.

(** The messages among the events, and the number of closes. *)
Fixpoint incoming (evs : list ws_event) : list App.ws_data :=
  match evs with
  | [] => []
  | Incoming data :: rest => data :: incoming rest
  | _ :: rest => incoming rest
  end.

Fixpoint closes (evs : list ws_event) : nat :=
  match evs with
  | [] => 0
  | Close :: rest => S (closes rest)
  | _ :: rest => closes rest
  end.

(** The page before "load": nothing set up yet. *)
Definition initial (conn_text : option string) (cv : option App.Canvas) : t :=
  mk (App.mkState None [] cv) conn_text [] [] 0.

End Page.

(** ** Numbers: checks of the conversions *)

Example floor_positive : Num.floor 2.75%float = Some 2%Z.
Proof. reflexivity. Qed.

Example floor_negative : Num.floor (-2.75)%float = Some (-3)%Z.
Proof. reflexivity. Qed.

(** 1/49 is rounded down, so the product stays just below 1. *)
Example nearest_is_floating_point : App.nearest 1 49 49 = Some 0%Z.
Proof. reflexivity. Qed.

Example clamp_ties_to_even :
  Num.to_uint8_clamp 0.5%float = 0%Z ∧ Num.to_uint8_clamp 1.5%float = 2%Z ∧
  Num.to_uint8_clamp 2.5%float = 2%Z ∧ Num.to_uint8_clamp 253.5%float = 254%Z.
Proof. repeat split. Qed.

Example clamp_bounds :
  Num.to_uint8_clamp 300%float = 255%Z ∧ Num.to_uint8_clamp (-3)%float = 0%Z ∧
  Num.to_uint8_clamp PrimFloat.nan = 0%Z.
Proof. repeat split. Qed.

Example float32_one : Num.of_f32_bits 0x3F800000 = 1%float.
Proof. reflexivity. Qed.

Example float32_negative : Num.of_f32_bits 0xC0200000 = (-2.5)%float.
Proof. reflexivity. Qed.

Example float32_little_endian :
  TypedArray.float32_elements [x00; x00; x80; x3f; x00; x00; x20; xc0]
  = [1%float; (-2.5)%float].
Proof. reflexivity. Qed.

Example color_of_decibels :
  App.color (-80)%float = 0%float ∧ App.color 0%float = 240%float ∧
  App.color 5%float = 255%float ∧ App.color (-100)%float = 0%float.
Proof. repeat split. Qed.

(** ** The frame buffer: append *)

Lemma set_at_end {A} (old incoming : list A) (pad : A) :
  TypedArray.set (old ++ replicate (length incoming) pad) incoming (length old)
  = Ok (old ++ incoming).
Proof.
  unfold TypedArray.set.
  rewrite length_app, length_replicate, Nat.ltb_irrefl.
  rewrite take_app_length, drop_ge, app_nil_r; [done|].
  rewrite length_app, length_replicate. lia.
Qed.

Lemma set_at_start {A} (old : list A) (n : nat) (pad : A) :
  TypedArray.set (replicate (length old + n) pad) old 0
  = Ok (old ++ replicate n pad).
Proof.
  unfold TypedArray.set.
  rewrite length_replicate.
  destruct (Nat.ltb_spec (length old + n) (0 + length old)) as [?|_]; [lia|].
  rewrite drop_replicate. simpl.
  by replace (length old + n - length old)%nat with n by lia.
Qed.

Lemma append_ok (incoming : list float) (p : PlayerProcessor.t) :
  PlayerProcessor.append incoming p
  = Ok (PlayerProcessor.mk (PlayerProcessor.buffer p ++ incoming)
                           (PlayerProcessor.readIndex p)).
Proof.
  unfold PlayerProcessor.append.
  rewrite set_at_start. cbn. by rewrite set_at_end.
Qed.

(** ** The frame buffer: the loops of [process] *)

Lemma alter_range_lookup {A} (g : A -> A) (n : nat) :
  ∀ (a : nat) (o : list A) (c : nat),
    foldl (fun o ch => alter g ch o) o (seq a n) !! c
    = if decide (a ≤ c < a + n) then g <$> o !! c else o !! c.
Proof.
  induction n as [|n IH]; intros a o c; simpl.
  - case_decide; [lia|done].
  - rewrite IH, list_lookup_alter.
    repeat case_decide; subst; try lia; done.
Qed.

Lemma silence_all (out : PlayerProcessor.planes) :
  PlayerProcessor.silence (length out) out
  = (fun plane => replicate (length plane) 0%float) <$> out.
Proof.
  apply list_eq; intros c. unfold PlayerProcessor.silence.
  rewrite alter_range_lookup, list_lookup_fmap.
  case_decide as Hc; [done|].
  rewrite (lookup_ge_None_2 out c) by lia. done.
Qed.

Lemma channel_loop (buf : list float) (f n : nat) :
  ∀ (a : nat) (o : PlayerProcessor.planes) (bi0 : nat),
    let res :=
      foldl (fun '(o, bi) ch =>
               (alter (fun plane => TypedArray.store plane f (TypedArray.load buf bi)) ch o,
                S bi))
            (o, bi0 + a) (seq a n) in
    res.2 = bi0 + a + n ∧
    ∀ c, res.1 !! c
         = if decide (a ≤ c < a + n)
           then (fun plane => TypedArray.store plane f (TypedArray.load buf (bi0 + c))) <$> o !! c
           else o !! c.
Proof.
  induction n as [|n IH]; intros a o bi0; simpl.
  - split; [lia|]. intros c. case_decide; [lia|done].
  - replace (S (bi0 + a)) with (bi0 + S a) by lia.
    destruct (IH (S a) (alter (fun plane => TypedArray.store plane f
                                 (TypedArray.load buf (bi0 + a))) a o) bi0)
      as [Hbi Hlk].
    split; [simpl in *; lia|].
    intros c. rewrite Hlk, list_lookup_alter.
    repeat case_decide; subst; try lia; done.
Qed.

Lemma write_frame_spec (buf : list float) (channels f : nat)
    (o : PlayerProcessor.planes) (bi : nat) :
  ∃ o', PlayerProcessor.write_frame buf channels f (o, bi) = (o', bi + channels) ∧
        ∀ c, o' !! c
             = if decide (c < channels)
               then (fun plane => TypedArray.store plane f (TypedArray.load buf (bi + c))) <$> o !! c
               else o !! c.
Proof.
  unfold PlayerProcessor.write_frame.
  pose proof (channel_loop buf f channels 0 o bi) as H.
  cbv zeta in H. rewrite !Nat.add_0_r in H.
  destruct (foldl _ _ _) as [o' bi'] eqn:E.
  destruct H as [Hbi Hlk]. simpl in Hbi, Hlk. subst bi'.
  exists o'. split; [done|].
  intros c. rewrite Hlk. repeat case_decide; try lia; done.
Qed.

Lemma frames_loop (buf : list float) (channels base n : nat) :
  ∀ (a : nat) (o : PlayerProcessor.planes),
    ∃ o', foldl (fun st f => PlayerProcessor.write_frame buf channels f st)
                (o, base + a * channels) (seq a n)
          = (o', base + (a + n) * channels) ∧
          ∀ c, o' !! c
               = if decide (c < channels)
                 then filled buf channels c base (seq a n) <$> o !! c
                 else o !! c.
Proof.
  induction n as [|n IH]; intros a o; simpl.
  - exists o. split; [f_equal; lia|].
    intros c. case_decide; [|done]. by destruct (o !! c).
  - destruct (write_frame_spec buf channels a o (base + a * channels))
      as (o1 & -> & Hlk1).
    replace (base + a * channels + channels) with (base + S a * channels) by lia.
    destruct (IH (S a) o1) as (o' & -> & Hlk).
    exists o'. split; [f_equal; lia|].
    intros c. rewrite Hlk, Hlk1.
    case_decide; [|done].
    by destruct (o !! c).
Qed.

Lemma deinterleave_spec (buf : list float) (frames channels : nat)
    (out : PlayerProcessor.planes) :
  ∃ out', PlayerProcessor.deinterleave buf frames channels out
          = (out', frames * channels) ∧
          ∀ c, out' !! c
               = if decide (c < channels)
                 then filled buf channels c 0 (seq 0 frames) <$> out !! c
                 else out !! c.
Proof.
  unfold PlayerProcessor.deinterleave.
  destruct (frames_loop buf channels 0 frames 0 out) as (out' & E & Hlk).
  simpl in E. exists out'. by split.
Qed.

Lemma filled_length (buf : list float) (channels c base : nat) (fs : list nat) :
  ∀ plane, length (filled buf channels c base fs plane) = length plane.
Proof.
  induction fs as [|f fs IH]; intros plane; simpl; [done|].
  unfold filled in *. simpl. rewrite IH. apply length_insert.
Qed.

Lemma filled_lookup (buf : list float) (channels c base n : nat) :
  ∀ (a : nat) (plane : list float) (f : nat),
    filled buf channels c base (seq a n) plane !! f
    = if decide (a ≤ f < a + n ∧ f < length plane)
      then Some (TypedArray.load buf (base + f * channels + c))
      else plane !! f.
Proof.
  induction n as [|n IH]; intros a plane f.
  - simpl. case_decide; [lia|done].
  - change (filled buf channels c base (seq a (S n)) plane)
      with (filled buf channels c base (seq (S a) n)
              (<[a := TypedArray.load buf (base + a * channels + c)]> plane)).
    rewrite IH, length_insert, list_lookup_insert.
    repeat case_decide; destruct_and?; subst; try lia; done.
Qed.

(** ** The frame buffer: [process] *)

Lemma deinterleave_eq (buf : list float) (frames : nat)
    (out : PlayerProcessor.planes) :
  PlayerProcessor.deinterleave buf frames (length out) out
  = (deinterleaved buf frames out, frames * length out).
Proof.
  destruct (deinterleave_spec buf frames (length out) out) as (out' & -> & Hlk).
  f_equal. apply list_eq; intros c.
  unfold deinterleaved. rewrite Hlk, list_lookup_imap.
  case_decide as Hc; [done|].
  by rewrite (lookup_ge_None_2 out c) by lia.
Qed.

Lemma process_eq (outputs : list PlayerProcessor.planes)
    (out : PlayerProcessor.planes) (out0 : list float) (p : PlayerProcessor.t) :
  outputs !! 0 = Some out → out !! 0 = Some out0 →
  PlayerProcessor.process outputs p
  = Ok (if length (PlayerProcessor.buffer p) <? length out0 * length out
        then ((fun plane => replicate (length plane) 0%float) <$> out, p, true)
        else (deinterleaved (PlayerProcessor.buffer p) (length out0) out,
              PlayerProcessor.mk
                (drop (length out0 * length out) (PlayerProcessor.buffer p))
                (PlayerProcessor.readIndex p),
              true)).
Proof.
  intros Hout Hout0. unfold PlayerProcessor.process.
  rewrite Hout. cbn [defined mbind result_bind].
  rewrite Hout0. cbn [defined mbind result_bind].
  destruct (Nat.ltb_spec (length (PlayerProcessor.buffer p))
                         (length out0 * length out)) as [Hlt|Hge].
  - by rewrite silence_all.
  - rewrite deinterleave_eq. unfold TypedArray.subarray.
    destruct (Nat.ltb_spec (length out0 * length out)
                           (length (PlayerProcessor.buffer p))) as [?|?]; [done|].
    by rewrite drop_ge.
Qed.

Lemma request_first_plane (outputs : list PlayerProcessor.planes)
    (frames channels : nat) :
  render_request outputs frames channels →
  ∃ out out0, outputs !! 0 = Some out ∧ out !! 0 = Some out0 ∧
              length out = channels ∧ length out0 = frames ∧
              Forall (fun plane => length plane = frames) out.
Proof.
  intros (out & Hout & Hlen & Hpos & Hall).
  destruct out as [|out0 rest]; [simpl in *; lia|].
  exists (out0 :: rest), out0.
  apply Forall_cons in Hall as Hhd. destruct Hhd as [Hhd _].
  by repeat split.
Qed.

Lemma request_size_of_request (outputs : list PlayerProcessor.planes)
    (frames channels : nat) :
  render_request outputs frames channels →
  request_size outputs = Some (frames, channels).
Proof.
  intros (out & out0 & Hout & Hout0 & <- & <- & _)%request_first_plane.
  unfold request_size. rewrite Hout. cbn. by rewrite Hout0.
Qed.

Lemma load_lookup (buf : list float) (i : nat) (v : float) :
  buf !! i = Some v → TypedArray.load buf i = v.
Proof. unfold TypedArray.load. by intros ->. Qed.

Lemma deinterleaved_lookup (buf : list float) (frames : nat)
    (out : PlayerProcessor.planes) (ch f : nat) :
  Forall (fun plane => length plane = frames) out →
  frames * length out ≤ length buf →
  ch < length out → f < frames →
  ∃ plane, deinterleaved buf frames out !! ch = Some plane ∧
           length plane = frames ∧
           plane !! f = buf !! (f * length out + ch) ∧
           is_Some (plane !! f).
Proof.
  intros Hall Hbuf Hch Hf.
  destruct (lookup_lt_is_Some_2 out ch Hch) as [pl Hpl].
  assert (length pl = frames) as Hlen.
  { by apply (proj1 (Forall_lookup _ _) Hall ch pl). }
  assert (f * length out + ch < length buf) as Hin by nia.
  destruct (lookup_lt_is_Some_2 buf _ Hin) as [v Hv].
  exists (filled buf (length out) ch 0 (seq 0 frames) pl).
  unfold deinterleaved. rewrite list_lookup_imap, Hpl. cbn.
  rewrite filled_length, filled_lookup.
  case_decide; [|lia].
  rewrite Hv. simpl. by rewrite (load_lookup _ _ _ Hv).
Qed.

Lemma concat_chunks {A} (buf : list A) (channels : nat) (row : nat -> list A)
    (n : nat) :
  n * channels ≤ length buf →
  (∀ f, f < n → row f = take channels (drop (f * channels) buf)) →
  concat (row <$> seq 0 n) = take (n * channels) buf.
Proof.
  induction n as [|n IH]; intros Hlen Hrow; [done|].
  rewrite seq_S, fmap_app, concat_app, IH by (try intros; auto with lia).
  simpl. rewrite app_nil_r, Hrow by lia.
  rewrite take_take_drop. f_equal. lia.
Qed.

Lemma interleave_deinterleaved (buf : list float) (frames : nat)
    (out : PlayerProcessor.planes) :
  Forall (fun plane => length plane = frames) out →
  0 < length out →
  frames * length out ≤ length buf →
  interleave (deinterleaved buf frames out) = take (frames * length out) buf.
Proof.
  intros Hall Hpos Hbuf.
  assert (length (deinterleaved buf frames out) = length out) as Hlen.
  { unfold deinterleaved. apply length_imap. }
  destruct (deinterleaved buf frames out) as [|plane0 rest] eqn:E;
    [simpl in Hlen; lia|].
  assert (length plane0 = frames) as Hp0.
  { destruct out as [|out0 tl]; [simpl in Hpos; lia|].
    unfold deinterleaved in E. simpl in E. injection E as <- _.
    rewrite filled_length. by apply Forall_cons in Hall as [? _]. }
  unfold interleave. rewrite Hp0, <- E. clear E Hlen Hp0 plane0 rest.
  apply concat_chunks; [done|].
  intros f Hf. apply list_eq; intros c.
  rewrite list_lookup_fmap.
  destruct (decide (c < length out)) as [Hc|Hc].
  - destruct (deinterleaved_lookup buf frames out c f)
      as (plane & -> & _ & Hpf & [v Hv]); try done.
    rewrite lookup_take_lt, lookup_drop by done. simpl.
    rewrite <- Hpf, Hv. f_equal. by apply load_lookup.
  - rewrite lookup_take_ge by lia.
    rewrite (lookup_ge_None_2 (deinterleaved buf frames out) c); [done|].
    unfold deinterleaved. rewrite length_imap. lia.
Qed.

Lemma silent_planes (frames : nat) (out : PlayerProcessor.planes) :
  Forall (fun plane => length plane = frames) out →
  (fun plane => replicate (length plane) 0%float) <$> out
  = replicate (length out) (replicate frames 0%float).
Proof.
  induction 1 as [|plane out Hlen _ IH]; [done|].
  by rewrite fmap_cons, Hlen, IH.
Qed.

Lemma process_sufficient (outputs : list PlayerProcessor.planes)
    (frames channels : nat) (p : PlayerProcessor.t) :
  render_request outputs frames channels →
  frames * channels ≤ length (PlayerProcessor.buffer p) →
  ∃ out',
    PlayerProcessor.process outputs p
    = Ok (out',
          PlayerProcessor.mk (drop (frames * channels) (PlayerProcessor.buffer p))
                             (PlayerProcessor.readIndex p),
          true) ∧
    length out' = channels ∧
    interleave out' = take (frames * channels) (PlayerProcessor.buffer p) ∧
    ∀ ch f, ch < channels → f < frames →
      ∃ plane, out' !! ch = Some plane ∧ length plane = frames ∧
               plane !! f = PlayerProcessor.buffer p !! (f * channels + ch) ∧
               is_Some (plane !! f).
Proof.
  intros Hreq Hbuf.
  pose proof Hreq as (out & Hout' & _ & Hpos & _).
  destruct (request_first_plane _ _ _ Hreq)
    as (out1 & out0 & Hout & Hout0 & Hch & Hfr & Hall).
  subst frames channels.
  exists (deinterleaved (PlayerProcessor.buffer p) (length out0) out1).
  split; [|split; [|split]].
  - rewrite (process_eq _ _ _ _ Hout Hout0).
    destruct (Nat.ltb_spec (length (PlayerProcessor.buffer p))
                           (length out0 * length out1)); [lia|done].
  - unfold deinterleaved. apply length_imap.
  - apply interleave_deinterleaved; [done| |done].
    rewrite Hout in Hout'. by injection Hout' as <-.
  - intros ch f Hc Hf. by apply deinterleaved_lookup.
Qed.

Lemma append_all_ok (batches : list (list float)) :
  ∀ p, append_all batches p
       = Ok (PlayerProcessor.mk (PlayerProcessor.buffer p ++ concat batches)
                                (PlayerProcessor.readIndex p)).
Proof.
  induction batches as [|b rest IH]; intros p; simpl.
  - rewrite app_nil_r. by destruct p.
  - rewrite append_ok. cbn [mbind result_bind]. rewrite IH. simpl.
    by rewrite app_assoc.
Qed.

Lemma drain_all_ok (ticks : list (list PlayerProcessor.planes)) :
  ∀ p,
    Forall (fun outputs => ∃ frames channels, render_request outputs frames channels)
           ticks →
    requested ticks = length (PlayerProcessor.buffer p) →
    ∃ outs,
      drain_all ticks p = Ok (outs, PlayerProcessor.mk [] (PlayerProcessor.readIndex p)) ∧
      concat (interleave <$> outs) = PlayerProcessor.buffer p.
Proof.
  induction ticks as [|outputs rest IH]; intros p Hall Hreq.
  - exists []. destruct p as [buf ri]. simpl in *.
    destruct buf; [done|discriminate].
  - apply Forall_cons in Hall as [(frames & channels & Hwf) Hall].
    simpl in Hreq. rewrite (request_size_of_request _ _ _ Hwf) in Hreq.
    destruct (process_sufficient outputs frames channels p Hwf)
      as (out' & Hproc & _ & Hinter & _); [lia|].
    destruct (IH (PlayerProcessor.mk
                    (drop (frames * channels) (PlayerProcessor.buffer p))
                    (PlayerProcessor.readIndex p)) Hall)
      as (outs & Hdrain & Hcat).
    { simpl. rewrite length_drop. lia. }
    cbn [PlayerProcessor.buffer PlayerProcessor.readIndex] in Hdrain, Hcat.
    exists (out' :: outs). cbn [drain_all]. rewrite Hproc. cbn [mbind result_bind].
    rewrite Hdrain. cbn [mbind result_bind].
    split; [done|].
    rewrite fmap_cons. cbn [concat]. rewrite Hinter, Hcat. apply take_drop.
Qed.

(** ** The render callback and the frame buffer: main results *)

(** C1. Underrun: when the buffer holds fewer than [frames * channels]
    samples, the tick writes [frames] zeros into each of the [channels]
    planes, returns [true], and the processor (hence its buffer) is left as
    it was. *)
Theorem underrun_is_silence (outputs : list PlayerProcessor.planes)
    (frames channels : nat) (p : PlayerProcessor.t) :
  render_request outputs frames channels →
  length (PlayerProcessor.buffer p) < frames * channels →
  PlayerProcessor.process outputs p
  = Ok (replicate channels (replicate frames 0%float), p, true).
Proof.
  intros Hreq Hlt.
  destruct (request_first_plane _ _ _ Hreq)
    as (out & out0 & Hout & Hout0 & <- & <- & Hall).
  rewrite (process_eq _ _ _ _ Hout Hout0).
  destruct (Nat.ltb_spec (length (PlayerProcessor.buffer p))
                         (length out0 * length out)); [|lia].
  by rewrite (silent_planes (length out0)).
Qed.

Lemma underrun_is_silence_witness :
  render_request [[[9%float; 9%float]; [9%float; 9%float]]] 2 2 ∧
  length (PlayerProcessor.buffer
            (PlayerProcessor.mk [1%float; 2%float; 3%float] 0)) < 2 * 2 ∧
  PlayerProcessor.process [[[9%float; 9%float]; [9%float; 9%float]]]
    (PlayerProcessor.mk [1%float; 2%float; 3%float] 0)
  = Ok ([[0%float; 0%float]; [0%float; 0%float]],
        PlayerProcessor.mk [1%float; 2%float; 3%float] 0, true).
Proof.
  assert (render_request [[[9%float; 9%float]; [9%float; 9%float]]] 2 2) as Hreq.
  { eexists. repeat split; [repeat constructor | repeat constructor]. }
  assert (length (PlayerProcessor.buffer
                    (PlayerProcessor.mk [1%float; 2%float; 3%float] 0)) < 2 * 2)
    as Hlt by repeat constructor.
  exact (conj Hreq (conj Hlt (underrun_is_silence _ 2 2 _ Hreq Hlt))).
Defined.

(** C2. FIFO order: after appending batches B1 ... Bn to a new processor,
    any run of render ticks that asks in total for as many samples as were
    appended returns, read back in interleaved order tick after tick, the
    concatenation B1 ++ ... ++ Bn, and leaves the buffer empty. *)
Theorem fifo_order (batches : list (list float))
    (ticks : list (list PlayerProcessor.planes)) :
  Forall (fun outputs => ∃ frames channels, render_request outputs frames channels)
         ticks →
  requested ticks = length (concat batches) →
  ∃ p outs,
    append_all batches PlayerProcessor.new = Ok p ∧
    drain_all ticks p = Ok (outs, PlayerProcessor.new) ∧
    concat (interleave <$> outs) = concat batches.
Proof.
  intros Hall Hreq.
  rewrite append_all_ok. eexists. 
  destruct (drain_all_ok ticks (PlayerProcessor.mk (concat batches) 0) Hall Hreq)
    as (outs & Hdrain & Hcat).
  exists outs. split; [reflexivity|]. by split.
Qed.

(** C3. De-interleaving: when the buffer holds at least
    [frames * channels] samples, the tick returns [true] with the sample at
    buffer index [f * channels + ch] in plane [ch] at position [f]; and two
    frames drained from [1; 2; 3; 4] over two channels give the planes
    [1; 3] and [2; 4]. *)
Theorem deinterleave_to_planes (outputs : list PlayerProcessor.planes)
    (frames channels : nat) (p : PlayerProcessor.t) :
  render_request outputs frames channels →
  frames * channels ≤ length (PlayerProcessor.buffer p) →
  (∃ out' p',
     PlayerProcessor.process outputs p = Ok (out', p', true) ∧
     ∀ ch f, ch < channels → f < frames →
       ∃ plane v, out' !! ch = Some plane ∧ plane !! f = Some v ∧
                  PlayerProcessor.buffer p !! (f * channels + ch) = Some v) ∧
  (p1 ← PlayerProcessor.append [1%float; 2%float; 3%float; 4%float]
          PlayerProcessor.new;
   PlayerProcessor.process [[[0%float; 0%float]; [0%float; 0%float]]] p1)
  = Ok ([[1%float; 3%float]; [2%float; 4%float]], PlayerProcessor.new, true).
Proof.
  intros Hreq Hbuf. split; [|reflexivity].
  destruct (process_sufficient outputs frames channels p Hreq Hbuf)
    as (out' & Hproc & _ & _ & Hlk).
  eexists out', _. split; [exact Hproc|].
  intros ch f Hch Hf.
  destruct (Hlk ch f Hch Hf) as (plane & Hplane & _ & Heq & [v Hv]).
  exists plane, v. by rewrite <- Heq.
Qed.

(** C4. Exact fit: appending exactly [frames * channels] samples to a new
    processor and running one tick puts every appended sample in its plane
    (sample [f * channels + ch] in plane [ch] at [f], so that the planes
    read back interleaved are the samples) and leaves the buffer empty. *)
Theorem exact_fit_drain (samples : list float)
    (outputs : list PlayerProcessor.planes) (frames channels : nat) :
  render_request outputs frames channels →
  length samples = frames * channels →
  ∃ p out',
    PlayerProcessor.append samples PlayerProcessor.new = Ok p ∧
    PlayerProcessor.process outputs p = Ok (out', PlayerProcessor.new, true) ∧
    PlayerProcessor.buffer PlayerProcessor.new = [] ∧
    interleave out' = samples ∧
    ∀ ch f, ch < channels → f < frames →
      ∃ plane v, out' !! ch = Some plane ∧ plane !! f = Some v ∧
                 samples !! (f * channels + ch) = Some v.
Proof.
  intros Hreq Hlen.
  rewrite append_ok. eexists. 
  destruct (process_sufficient outputs frames channels
              (PlayerProcessor.mk samples 0) Hreq)
    as (out' & Hproc & _ & Hinter & Hlk); [simpl; lia|].
  cbn [PlayerProcessor.buffer PlayerProcessor.readIndex] in *.
  rewrite <- Hlen, drop_all in Hproc. rewrite <- Hlen, firstn_all in Hinter.
  exists out'. split; [reflexivity|]. repeat split; try done.
  intros ch f Hch Hf.
  destruct (Hlk ch f Hch Hf) as (plane & Hplane & _ & Heq & [v Hv]).
  exists plane, v. by rewrite <- Heq.
Qed.

Lemma request_size_inv (outputs : list PlayerProcessor.planes)
    (frames channels : nat) :
  request_size outputs = Some (frames, channels) →
  ∃ out out0, outputs !! 0 = Some out ∧ out !! 0 = Some out0 ∧
              length out0 = frames ∧ length out = channels.
Proof.
  unfold request_size. intros H.
  destruct (outputs !! 0) as [out|]; [|done]. cbn in H.
  destruct (out !! 0) as [out0|] eqn:Hout0; [|done]. cbn in H.
  injection H as <- <-. by exists out, out0.
Qed.

(** Without a first output or a first channel the size reads fault. *)
Lemma process_without_channel (outputs : list PlayerProcessor.planes)
    (p : PlayerProcessor.t) :
  request_size outputs = None →
  PlayerProcessor.process outputs p = Throw TypeError.
Proof.
  unfold request_size, PlayerProcessor.process. intros H.
  destruct (outputs !! 0) as [out|]; [|done].
  cbn [defined mbind result_bind option_bind] in *.
  destruct (out !! 0) as [out0|]; [discriminate H|done].
Qed.

Lemma deinterleaved_lengths (buf : list float) (frames : nat)
    (out : list (list float)) :
  length <$> deinterleaved buf frames out = length <$> out.
Proof.
  apply list_eq; intros i. unfold deinterleaved.
  rewrite !list_lookup_fmap, list_lookup_imap.
  destruct (out !! i) as [plane|]; [|done]. simpl. by rewrite filled_length.
Qed.

Lemma silenced_lengths (out : list (list float)) :
  length <$> ((fun plane => replicate (length plane) 0%float) <$> out)
  = length <$> out.
Proof.
  apply list_eq; intros i. rewrite !list_lookup_fmap.
  destruct (out !! i) as [plane|]; [|done]. simpl. by rewrite length_replicate.
Qed.

(** C7. The render callback always continues: whenever the host hands over
    an output with a first channel, [process] does not throw and returns
    [true], whatever the buffer holds, and it leaves as many planes as it
    was given, each of its own length.  On an underrun the processor is
    left as it was and the planes returned are the planes given with every
    sample replaced by 0.0; otherwise they are the de-interleaved samples
    and exactly [frames * channels] samples are dropped from the buffer. *)
Theorem render_always_continues (outputs : list PlayerProcessor.planes)
    (frames channels : nat) (p : PlayerProcessor.t) :
  request_size outputs = Some (frames, channels) →
  ∃ out out' p',
    outputs !! 0 = Some out ∧ length out = channels ∧
    PlayerProcessor.process outputs p = Ok (out', p', true) ∧
    length <$> out' = length <$> out ∧
    (length (PlayerProcessor.buffer p) < frames * channels →
     p' = p ∧
     out' = (fun plane => replicate (length plane) 0%float) <$> out ∧
     ∀ plane v, plane ∈ out' → v ∈ plane → v = 0%float) ∧
    (frames * channels ≤ length (PlayerProcessor.buffer p) →
     out' = deinterleaved (PlayerProcessor.buffer p) frames out ∧
     PlayerProcessor.buffer p'
     = drop (frames * channels) (PlayerProcessor.buffer p)).
Proof.
  intros (out & out0 & Hout & Hout0 & <- & <-)%request_size_inv.
  rewrite (process_eq _ _ _ _ Hout Hout0).
  exists out.
  destruct (Nat.ltb_spec (length (PlayerProcessor.buffer p))
                         (length out0 * length out)) as [Hlt|Hge].
  - eexists _, _. split; [done|]. split; [done|]. split; [reflexivity|].
    split; [apply silenced_lengths|]. split; [|lia].
    intros _. split; [done|]. split; [done|].
    intros plane v (pl & -> & _)%list_elem_of_fmap Hv.
    by apply elem_of_replicate in Hv as [-> _].
  - eexists _, _. split; [done|]. split; [done|]. split; [reflexivity|].
    split; [apply deinterleaved_lengths|]. split; [lia|].
    intros _. by split.
Qed.

(** C9. Buffer accounting (lengths are natural numbers, so never
    negative): an append of [n] samples, directly or through a "pcm"
    message, gives the old buffer followed by the [n] samples; any other
    message leaves the processor as it was; a render tick drops exactly
    the first [frames * channels] samples when that many are buffered and
    leaves the buffer as it was otherwise. *)
Theorem buffer_accounting (p : PlayerProcessor.t) (incoming : list float)
    (ab : list byte) (outputs : list PlayerProcessor.planes)
    (frames channels : nat) :
  request_size outputs = Some (frames, channels) →
  length ab mod 4 = 0 →
  (∃ p1, PlayerProcessor.append incoming p = Ok p1 ∧
         PlayerProcessor.buffer p1 = PlayerProcessor.buffer p ++ incoming ∧
         length (PlayerProcessor.buffer p1)
         = length (PlayerProcessor.buffer p) + length incoming) ∧
  (∃ p1, PlayerProcessor.onmessage (PlayerProcessor.Pcm ab) p = Ok p1 ∧
         PlayerProcessor.buffer p1
         = PlayerProcessor.buffer p ++ TypedArray.float32_elements ab) ∧
  PlayerProcessor.onmessage PlayerProcessor.NotPcm p = Ok p ∧
  (∃ out' p2,
     PlayerProcessor.process outputs p = Ok (out', p2, true) ∧
     if decide (frames * channels ≤ length (PlayerProcessor.buffer p))
     then PlayerProcessor.buffer p2
          = drop (frames * channels) (PlayerProcessor.buffer p) ∧
          length (PlayerProcessor.buffer p2)
          = length (PlayerProcessor.buffer p) - frames * channels
     else PlayerProcessor.buffer p2 = PlayerProcessor.buffer p).
Proof.
  intros (out & out0 & Hout & Hout0 & <- & <-)%request_size_inv Hab.
  repeat split.
  - rewrite append_ok. eexists. split; [reflexivity|].
    split; [done|]. simpl. apply length_app.
  - unfold PlayerProcessor.onmessage, TypedArray.float32_of_buffer.
    rewrite Hab. cbn [Nat.eqb mbind result_bind]. rewrite append_ok.
    eexists. by split.
  - rewrite (process_eq _ _ _ _ Hout Hout0).
    destruct (Nat.ltb_spec (length (PlayerProcessor.buffer p))
                           (length out0 * length out)) as [Hlt|Hge];
      eexists _, _; (split; [reflexivity|]); case_decide; try lia; try done.
    split; [done|]. simpl. apply length_drop.
Qed.

(** ** Instances at concrete inputs *)

Lemma fifo_order_witness :
  let batches := [[1%float; 2%float]; [3%float; 4%float; 5%float; 6%float]] in
  let ticks := [[[[0%float]; [0%float]]];
                [[[0%float; 0%float]; [0%float; 0%float]]]] in
  Forall (fun outputs => ∃ frames channels, render_request outputs frames channels)
         ticks ∧
  requested ticks = length (concat batches) ∧
  ∃ p outs,
    append_all batches PlayerProcessor.new = Ok p ∧
    drain_all ticks p = Ok (outs, PlayerProcessor.new) ∧
    concat (interleave <$> outs) = concat batches.
Proof.
  intros batches ticks.
  assert (Forall (fun outputs => ∃ frames channels,
                      render_request outputs frames channels) ticks) as Hall.
  { repeat constructor; [exists 1, 2 | exists 2, 2]; solve_request. }
  assert (requested ticks = length (concat batches)) as Hreq by reflexivity.
  exact (conj Hall (conj Hreq (fifo_order batches ticks Hall Hreq))).
Defined.

Lemma deinterleave_to_planes_witness :
  let outputs := [[[0%float; 0%float]; [0%float; 0%float]; [0%float; 0%float]]] in
  let p := PlayerProcessor.mk
             [1%float; 2%float; 3%float; 4%float; 5%float; 6%float; 7%float] 0 in
  render_request outputs 2 3 ∧
  2 * 3 ≤ length (PlayerProcessor.buffer p) ∧
  ∃ out' p',
    PlayerProcessor.process outputs p = Ok (out', p', true) ∧
    ∀ ch f, ch < 3 → f < 2 →
      ∃ plane v, out' !! ch = Some plane ∧ plane !! f = Some v ∧
                 PlayerProcessor.buffer p !! (f * 3 + ch) = Some v.
Proof.
  intros outputs p.
  assert (render_request outputs 2 3) as Hreq by solve_request.
  assert (2 * 3 ≤ length (PlayerProcessor.buffer p)) as Hbuf
    by repeat constructor.
  exact (conj Hreq (conj Hbuf
           (proj1 (deinterleave_to_planes outputs 2 3 p Hreq Hbuf)))).
Defined.

Lemma exact_fit_drain_witness :
  let samples := [1%float; 2%float; 3%float; 4%float] in
  let outputs := [[[0%float; 0%float]; [0%float; 0%float]]] in
  render_request outputs 2 2 ∧
  length samples = 2 * 2 ∧
  ∃ p out',
    PlayerProcessor.append samples PlayerProcessor.new = Ok p ∧
    PlayerProcessor.process outputs p = Ok (out', PlayerProcessor.new, true) ∧
    PlayerProcessor.buffer PlayerProcessor.new = [] ∧
    interleave out' = samples ∧
    ∀ ch f, ch < 2 → f < 2 →
      ∃ plane v, out' !! ch = Some plane ∧ plane !! f = Some v ∧
                 samples !! (f * 2 + ch) = Some v.
Proof.
  intros samples outputs.
  assert (render_request outputs 2 2) as Hreq by solve_request.
  assert (length samples = 2 * 2) as Hlen by reflexivity.
  exact (conj Hreq (conj Hlen (exact_fit_drain samples outputs 2 2 Hreq Hlen))).
Defined.

Lemma render_always_continues_witness :
  let outputs := [[[9%float; 9%float]; [9%float; 9%float]]] in
  let p := PlayerProcessor.mk [1%float] 0 in
  request_size outputs = Some (2, 2) ∧
  PlayerProcessor.process outputs p
  = Ok ([[0%float; 0%float]; [0%float; 0%float]], p, true) ∧
  ∃ out out' p',
    outputs !! 0 = Some out ∧ length out = 2 ∧
    PlayerProcessor.process outputs p = Ok (out', p', true) ∧
    length <$> out' = length <$> out ∧
    (length (PlayerProcessor.buffer p) < 2 * 2 →
     p' = p ∧
     out' = (fun plane => replicate (length plane) 0%float) <$> out ∧
     ∀ plane v, plane ∈ out' → v ∈ plane → v = 0%float) ∧
    (2 * 2 ≤ length (PlayerProcessor.buffer p) →
     out' = deinterleaved (PlayerProcessor.buffer p) 2 out ∧
     PlayerProcessor.buffer p' = drop (2 * 2) (PlayerProcessor.buffer p)).
Proof.
  intros outputs p.
  exact (conj eq_refl (conj eq_refl
           (render_always_continues outputs 2 2 p eq_refl))).
Defined.

Lemma buffer_accounting_witness :
  let p := PlayerProcessor.mk [1%float; 2%float; 3%float; 4%float; 5%float] 0 in
  let outputs := [[[0%float; 0%float]; [0%float; 0%float]]] in
  let ab := [x00; x00; x80; x3f]%byte in
  request_size outputs = Some (2, 2) ∧
  length ab mod 4 = 0 ∧
  (∃ p1, PlayerProcessor.onmessage (PlayerProcessor.Pcm ab) p = Ok p1 ∧
         PlayerProcessor.buffer p1
         = PlayerProcessor.buffer p ++ TypedArray.float32_elements ab) ∧
  (∃ out' p2,
     PlayerProcessor.process outputs p = Ok (out', p2, true) ∧
     if decide (2 * 2 ≤ length (PlayerProcessor.buffer p))
     then PlayerProcessor.buffer p2 = drop (2 * 2) (PlayerProcessor.buffer p) ∧
          length (PlayerProcessor.buffer p2)
          = length (PlayerProcessor.buffer p) - 2 * 2
     else PlayerProcessor.buffer p2 = PlayerProcessor.buffer p).
Proof.
  intros p outputs ab.
  pose proof (buffer_accounting p [] ab outputs 2 2 eq_refl eq_refl)
    as (_ & Hmsg & _ & Hproc).
  exact (conj eq_refl (conj eq_refl (conj Hmsg Hproc))).
Defined.

(** ** app.js: the binary branch *)

Lemma is_opus_tag (ab : list byte) :
  2 ≤ length ab → ab !! 0 = Some x4f → ab !! 1 = Some x50 →
  App.is_opus ab = true.
Proof.
  intros Hlen H0 H1. unfold App.is_opus.
  destruct ab as [|b0 [|b1 rest]]; simpl in Hlen; try lia.
  injection H0 as ->. injection H1 as ->. reflexivity.
Qed.

Lemma is_opus_short (ab : list byte) : length ab ≤ 1 → App.is_opus ab = false.
Proof.
  intros Hlen. destruct ab as [|b0 [|b1 rest]]; simpl in Hlen; try lia; done.
Qed.

(** C6. Classifier boundary: a chunk of at least two bytes that starts
    with the bytes of "OP" is classified Unsupported whatever follows; the
    handler then resolves having only added the warning, so the player node
    and its frame buffer are as before.  A chunk of zero or one byte is
    classified RawPcm and takes the raw PCM path. *)
Theorem classifier_boundary (JSON_parse : string -> result App.json)
    (ab short : list byte) (st : App.state) :
  2 ≤ length ab → ab !! 0 = Some x4f → ab !! 1 = Some x50 →
  length short ≤ 1 →
  (App.classify ab = App.Unsupported ∧
   App.onmessage JSON_parse (App.Binary ab) st
   = (App.mkState (App.playerNode st)
                  (App.warnings st ++ [App.opus_warning]) (App.canvas st),
      App.Resolved)) ∧
  (App.classify short = App.RawPcm ∧
   App.on_binary short st = App.post_pcm short st).
Proof.
  intros Hlen H0 H1 Hshort.
  unfold App.onmessage, App.on_binary, App.classify.
  rewrite (is_opus_tag ab Hlen H0 H1), (is_opus_short short Hshort).
  done.
Qed.

Lemma classifier_boundary_witness :
  let ab := [x4f; x50; x00; x00; x80; x3f] in
  let short := [x07] in
  2 ≤ length ab ∧ ab !! 0 = Some x4f ∧ ab !! 1 = Some x50 ∧
  length short ≤ 1 ∧
  (App.classify ab = App.Unsupported ∧
   App.onmessage parse_nothing (App.Binary ab) ready_page
   = (App.mkState (Some PlayerProcessor.new) [App.opus_warning] None,
      App.Resolved)) ∧
  (App.classify short = App.RawPcm ∧
   App.on_binary short ready_page = App.post_pcm short ready_page).
Proof.
  intros ab short.
  assert (2 ≤ length ab) as Hlen by repeat constructor.
  assert (length short ≤ 1) as Hshort by repeat constructor.
  exact (conj Hlen (conj eq_refl (conj eq_refl (conj Hshort
           (classifier_boundary parse_nothing ab short ready_page
              Hlen eq_refl eq_refl Hshort))))).
Defined.

(** C5, as the code has it.  A raw PCM chunk whose byte length is not a
    multiple of 4 (a 1-byte chunk included) makes the [Float32Array]
    constructor throw a RangeError: the handler's promise is rejected,
    nothing is posted to the player node, and the page, frame buffer
    included, is left as it was; the complete floats of the chunk are
    dropped with it. *)
Theorem misaligned_chunk_rejected (JSON_parse : string -> result App.json)
    (ab : list byte) (st : App.state) :
  App.classify ab = App.RawPcm →
  length ab mod 4 ≠ 0 →
  App.onmessage JSON_parse (App.Binary ab) st = (st, App.Rejected RangeError).
Proof.
  intros Hclass Hmod.
  unfold App.onmessage, App.on_binary. rewrite Hclass.
  unfold App.post_pcm, TypedArray.float32_of_buffer.
  destruct (Nat.eqb_spec (length ab mod 4) 0) as [?|_]; [done|].
  reflexivity.
Qed.

Lemma misaligned_chunk_rejected_witness :
  let ab := [x07] in
  App.classify ab = App.RawPcm ∧
  length ab mod 4 ≠ 0 ∧
  App.onmessage parse_nothing (App.Binary ab) ready_page
  = (ready_page, App.Rejected RangeError).
Proof.
  intros ab.
  assert (length ab mod 4 ≠ 0) as Hmod by discriminate.
  exact (conj eq_refl (conj Hmod
           (misaligned_chunk_rejected parse_nothing ab ready_page eq_refl Hmod))).
Defined.

(** C5, as stated, fails on the five-byte chunk 00 00 80 3f 07: it is raw
    PCM, its first four bytes are the float 1.0, yet the handler rejects
    with a RangeError and appends nothing. *)
Lemma truncating_ingest_fails :
  let ab := [x00; x00; x80; x3f; x07] in
  App.classify ab = App.RawPcm ∧
  TypedArray.float32_elements ab = [1%float] ∧
  App.onmessage parse_nothing (App.Binary ab) ready_page
  = (ready_page, App.Rejected RangeError) ∧
  ¬ truncating_ingest parse_nothing ab ready_page.
Proof.
  intros ab. repeat split.
  intros (node & _ & H). discriminate H.
Qed.

(** A chunk whose length is a multiple of 4 is appended whole and in
    order. *)
Lemma aligned_chunk_appended (JSON_parse : string -> result App.json)
    (ab : list byte) (st : App.state) (node : PlayerProcessor.t) :
  App.classify ab = App.RawPcm →
  length ab mod 4 = 0 →
  App.playerNode st = Some node →
  truncating_ingest JSON_parse ab st.
Proof.
  intros Hclass Hmod Hnode. exists node. split; [done|].
  unfold App.onmessage, App.on_binary. rewrite Hclass.
  unfold App.post_pcm, App.postMessage, PlayerProcessor.onmessage,
    TypedArray.float32_of_buffer.
  rewrite Hmod, Hnode. cbn [Nat.eqb mbind result_bind defined].
  by rewrite append_ok.
Qed.

(** ** app.js: the spectrogram loops *)

Lemma put_pixel_at_end (pre : list Z) (r0 r1 r2 r3 : Z) (rest : list Z)
    (c : float) :
  App.put_pixel (pre ++ r0 :: r1 :: r2 :: r3 :: rest) (length pre) c
  = pre ++ rgba c ++ rest.
Proof.
  unfold App.put_pixel.
  rewrite !insert_app_r_alt by lia.
  by rewrite Nat.sub_diag, !Nat.add_sub'.
Qed.

Lemma draw_pixel_eq (m : list (list float)) (w h cols y x : nat)
    (row : option Z) (line : list float) (data : list Z) :
  App.index m row = Some line →
  App.draw_pixel m w h cols row y x data
  = Ok (App.put_pixel data ((y * w + x) * 4) (pixel_color line w cols x)).
Proof. intros Hline. unfold App.draw_pixel. by rewrite Hline. Qed.

Lemma pixel_loop (m : list (list float)) (w h cols y : nat) (row : option Z)
    (line : list float) :
  App.index m row = Some line →
  ∀ (n a : nat) (pre : list Z) (R : nat),
    length pre = (y * w + a) * 4 →
    for_each (seq a n) (App.draw_pixel m w h cols row y)
             (pre ++ replicate ((n + R) * 4) 0%Z)
    = Ok (pre ++ concat ((fun x => rgba (pixel_color line w cols x)) <$> seq a n)
               ++ replicate (R * 4) 0%Z).
Proof.
  intros Hline. induction n as [|n IH]; intros a pre R Hdone; [done|].
  cbn [seq for_each]. rewrite (draw_pixel_eq _ _ _ _ _ _ _ line) by done.
  cbn [mbind result_bind].
  change ((S n + R) * 4) with (S (S (S (S ((n + R) * 4))))).
  cbn [replicate]. rewrite <- Hdone, put_pixel_at_end.
  rewrite (app_assoc pre), IH by (rewrite length_app; simpl; lia).
  rewrite fmap_cons. cbn [concat]. by rewrite <- !app_assoc.
Qed.

Lemma pixels_length (f : nat -> float) (n : nat) :
  ∀ a, length (concat ((fun x => rgba (f x)) <$> seq a n)) = n * 4.
Proof.
  induction n as [|n IH]; intros a; [done|].
  cbn [seq]. rewrite fmap_cons. cbn [concat].
  rewrite length_app, IH. simpl. lia.
Qed.

Lemma row_pixels_length (line : list float) (w cols : nat) :
  length (row_pixels line w cols) = w * 4.
Proof. apply (pixels_length (pixel_color line w cols)). Qed.

Lemma rows_loop (m : list (list float)) (w h rows cols : nat)
    (line_of : nat -> list float) :
  ∀ (n b : nat) (pre : list Z) (R : nat),
    length pre = b * w * 4 →
    (∀ y, b ≤ y < b + n → App.index m (App.nearest y h rows) = Some (line_of y)) →
    for_each (seq b n)
      (fun y data =>
         for_each (seq 0 w) (App.draw_pixel m w h cols (App.nearest y h rows) y) data)
      (pre ++ replicate ((n * w + R) * 4) 0%Z)
    = Ok (pre ++ concat ((fun y => row_pixels (line_of y) w cols) <$> seq b n)
               ++ replicate (R * 4) 0%Z).
Proof.
  induction n as [|n IH]; intros b pre R Hdone Hrows; [done|].
  cbn [seq for_each].
  replace ((S n * w + R) * 4) with ((w + (n * w + R)) * 4) by lia.
  rewrite (pixel_loop m w h cols b _ (line_of b)) by (try apply Hrows; lia).
  cbn [mbind result_bind].
  change (concat ((fun x => rgba (pixel_color (line_of b) w cols x)) <$> seq 0 w))
    with (row_pixels (line_of b) w cols).
  rewrite (app_assoc pre), IH.
  - rewrite fmap_cons. cbn [concat]. by rewrite <- !app_assoc.
  - rewrite length_app, row_pixels_length. lia.
  - intros y Hy. apply Hrows. lia.
Qed.

Lemma concat_chunks_length {A} (g : nat -> list A) (s n : nat) :
  (∀ j, j < n → length (g j) = s) →
  length (concat (g <$> seq 0 n)) = n * s.
Proof.
  induction n as [|n IH]; intros Hlen; [done|].
  rewrite seq_S, fmap_app, concat_app, length_app, IH by auto with lia.
  simpl. rewrite app_nil_r, Hlen by lia. lia.
Qed.

Lemma lookup_concat_chunks {A} (g : nat -> list A) (s n i k : nat) :
  (∀ j, j < n → length (g j) = s) →
  i < n → k < s →
  concat (g <$> seq 0 n) !! (i * s + k) = g i !! k.
Proof.
  induction n as [|n IH]; intros Hlen Hi Hk; [lia|].
  rewrite seq_S, fmap_app, concat_app. simpl. rewrite app_nil_r.
  assert (length (concat (g <$> seq 0 n)) = n * s) as Hpre
    by (apply concat_chunks_length; auto with lia).
  destruct (decide (i < n)) as [Hlt|Hge].
  - rewrite lookup_app_l by (rewrite Hpre; nia). apply IH; auto with lia.
  - assert (i = n) as -> by lia.
    rewrite lookup_app_r by (rewrite Hpre; lia).
    rewrite Hpre. f_equal. lia.
Qed.

Lemma render_image (m : list (list float)) (row0 : list float) (w h : nat)
    (line_of : nat -> list float) :
  m !! 0 = Some row0 → 0 < w → 0 < h →
  (∀ y, y < h →
        App.index m (App.nearest y h (length m)) = Some (line_of y)) →
  App.render (Some m) w h
  = Ok (concat ((fun y => row_pixels (line_of y) w (length row0)) <$> seq 0 h)).
Proof.
  intros Hrow0 Hw Hh Hrows. unfold App.render.
  cbn [defined mbind result_bind]. rewrite Hrow0.
  cbn [defined mbind result_bind]. unfold App.createImageData.
  destruct w as [|w]; [lia|]. destruct h as [|h]; [lia|].
  cbn [Nat.eqb orb mbind result_bind]. unfold App.draw_rows.
  pose proof (rows_loop m (S w) (S h) (length m) (length row0) line_of
                (S h) 0 [] 0 eq_refl) as Hloop.
  rewrite !app_nil_l, app_nil_r in Hloop.
  replace ((S h * S w + 0) * 4) with (S w * S h * 4) in Hloop by lia.
  apply Hloop. intros y Hy. apply Hrows. lia.
Qed.

Lemma draw_pixel_fault (m : list (list float)) (w h cols y x : nat)
    (row : option Z) (data : list Z) :
  App.index m row = None →
  App.draw_pixel m w h cols row y x data = Throw TypeError.
Proof. intros Hnone. unfold App.draw_pixel. by rewrite Hnone. Qed.

Lemma pixel_loop_total (m : list (list float)) (w h cols y : nat)
    (row : option Z) (line : list float) :
  App.index m row = Some line →
  ∀ (n a : nat) (data : list Z),
    ∃ data', for_each (seq a n) (App.draw_pixel m w h cols row y) data = Ok data'.
Proof.
  intros Hline. induction n as [|n IH]; intros a data; [by eexists|].
  cbn [seq for_each]. rewrite (draw_pixel_eq _ _ _ _ _ _ _ line) by done.
  cbn [mbind result_bind]. apply IH.
Qed.

Lemma rows_loop_fault (m : list (list float)) (w h rows cols : nat) :
  0 < w →
  ∀ (n b : nat) (data : list Z),
    (∃ y, b ≤ y < b + n ∧ App.index m (App.nearest y h rows) = None) →
    for_each (seq b n)
      (fun y data =>
         for_each (seq 0 w) (App.draw_pixel m w h cols (App.nearest y h rows) y) data)
      data
    = Throw TypeError.
Proof.
  intros Hw. induction n as [|n IH]; intros b data (y & Hy & Hnone); [lia|].
  cbn [seq for_each].
  destruct (App.index m (App.nearest b h rows)) as [line|] eqn:Hb.
  - destruct (pixel_loop_total m w h cols b _ line Hb w 0 data) as [data' ->].
    cbn [mbind result_bind]. apply IH. exists y. split; [|done].
    destruct (decide (y = b)) as [->|]; [congruence|lia].
  - destruct w as [|w]; [lia|]. cbn [seq for_each].
    by rewrite draw_pixel_fault.
Qed.

(** When some canvas row maps to no matrix row, the draw faults after the
    canvas was cleared. *)
Lemma drawSpectrogram_row_fault (m : list (list float)) (row0 : list float)
    (c : App.Canvas) (y : nat) :
  App.has_context c = true →
  0 < App.width c → y < App.height c →
  m !! 0 = Some row0 →
  App.index m (App.nearest y (App.height c) (length m)) = None →
  App.drawSpectrogram (Some m) (Some c) = (Some (App.clearRect c), Throw TypeError).
Proof.
  intros Hctx Hw Hy Hrow0 Hnone.
  unfold App.drawSpectrogram, App.render. rewrite Hctx.
  cbn [defined mbind result_bind]. rewrite Hrow0.
  cbn [defined mbind result_bind]. unfold App.createImageData.
  destruct (App.width c) as [|w] eqn:Ew; [lia|].
  destruct (App.height c) as [|h] eqn:Eh; [lia|].
  cbn [Nat.eqb orb mbind result_bind]. unfold App.draw_rows.
  rewrite rows_loop_fault; [done|lia|].
  exists y. split; [lia|done].
Qed.

Lemma image_lookup (line_of : nat -> list float) (w h cols x y k : nat) :
  x < w → y < h → k < 4 →
  concat ((fun y => row_pixels (line_of y) w cols) <$> seq 0 h)
    !! ((y * w + x) * 4 + k)
  = rgba (pixel_color (line_of y) w cols x) !! k.
Proof.
  intros Hx Hy Hk.
  replace ((y * w + x) * 4 + k) with (y * (w * 4) + (x * 4 + k)) by lia.
  rewrite (lookup_concat_chunks _ (w * 4)); [|intros; apply row_pixels_length|lia|lia].
  unfold row_pixels.
  by rewrite (lookup_concat_chunks _ 4).
Qed.

(** ** app.js: main results *)

(** C8, as the code has it.  On a canvas with a 2-D context and a matrix
    with a first row, when every canvas row maps to an existing matrix row,
    [drawSpectrogram] replaces the bitmap by an image of
    [width * height * 4] bytes in which the pixel (x, y) reads the matrix
    value [v] at row [floor((y / h) * rows)] and column
    [floor((x / w) * cols)] and holds the bytes
    (round(c), 0, round(255 - c), 255) for c = clamp((v + 80) * 3, 0, 255),
    where round is the conversion of a store into the byte array: nearest
    integer, ties to even. *)
Theorem spectrogram_pixels (m : list (list float)) (row0 : list float)
    (c : App.Canvas) :
  App.has_context c = true →
  0 < App.width c → 0 < App.height c →
  m !! 0 = Some row0 →
  (∀ y, y < App.height c →
        is_Some (App.index m (App.nearest y (App.height c) (length m)))) →
  ∃ data,
    App.drawSpectrogram (Some m) (Some c)
    = (Some (App.mkCanvas (App.width c) (App.height c) true data), Ok tt) ∧
    length data = App.width c * App.height c * 4 ∧
    ∀ x y line v,
      x < App.width c → y < App.height c →
      App.index m (App.nearest y (App.height c) (length m)) = Some line →
      App.index line (App.nearest x (App.width c) (length row0)) = Some v →
      let cl := Num.max 0%float (Num.min 255%float ((v + 80) * 3)%float) in
      let i := (y * App.width c + x) * 4 in
      data !! i = Some (Num.to_uint8_clamp cl) ∧
      data !! (i + 1) = Some 0%Z ∧
      data !! (i + 2) = Some (Num.to_uint8_clamp (255 - cl)%float) ∧
      data !! (i + 3) = Some 255%Z.
Proof.
  intros Hctx Hw Hh Hrow0 Hrows.
  set (line_of := fun y =>
         default [] (App.index m (App.nearest y (App.height c) (length m)))).
  assert (∀ y, y < App.height c →
               App.index m (App.nearest y (App.height c) (length m))
               = Some (line_of y)) as Hline.
  { intros y Hy. unfold line_of. by destruct (Hrows y Hy) as [l ->]. }
  eexists. split; [|split].
  - unfold App.drawSpectrogram. rewrite Hctx.
    rewrite (render_image m row0 _ _ line_of Hrow0 Hw Hh Hline).
    unfold App.putImageData, App.clearRect. cbn [App.width App.height App.has_context].
    rewrite Hctx. reflexivity.
  - rewrite (concat_chunks_length _ (App.width c * 4));
      [lia | intros; apply row_pixels_length].
  - intros x y line v Hx Hy Hl Hv cl i.
    assert (line_of y = line) as Hly
      by (rewrite (Hline y Hy) in Hl; by injection Hl).
    assert (pixel_color (line_of y) (App.width c) (length row0) x = cl) as Hcl
      by (unfold pixel_color; rewrite Hly, Hv; reflexivity).
    pose proof (fun k => image_lookup line_of (App.width c) (App.height c)
                           (length row0) x y k Hx Hy) as Hpix.
    rewrite Hcl in Hpix. fold i in Hpix.
    repeat split.
    + rewrite <- (Nat.add_0_r i). apply (Hpix 0). lia.
    + apply (Hpix 1). lia.
    + apply (Hpix 2). lia.
    + apply (Hpix 3). lia.
Qed.

Lemma spectrogram_pixels_witness :
  let m := [[(-80)%float; (-79.5)%float]; [5%float; 0%float]] in
  let c := App.mkCanvas 2 2 true (replicate 16 7%Z) in
  App.has_context c = true ∧
  0 < App.width c ∧ 0 < App.height c ∧
  m !! 0 = Some [(-80)%float; (-79.5)%float] ∧
  (∀ y, y < App.height c →
        is_Some (App.index m (App.nearest y (App.height c) (length m)))) ∧
  ∃ data,
    App.drawSpectrogram (Some m) (Some c)
    = (Some (App.mkCanvas (App.width c) (App.height c) true data), Ok tt) ∧
    length data = App.width c * App.height c * 4 ∧
    ∀ x y line v,
      x < App.width c → y < App.height c →
      App.index m (App.nearest y (App.height c) (length m)) = Some line →
      App.index line (App.nearest x (App.width c) 2) = Some v →
      let cl := Num.max 0%float (Num.min 255%float ((v + 80) * 3)%float) in
      let i := (y * App.width c + x) * 4 in
      data !! i = Some (Num.to_uint8_clamp cl) ∧
      data !! (i + 1) = Some 0%Z ∧
      data !! (i + 2) = Some (Num.to_uint8_clamp (255 - cl)%float) ∧
      data !! (i + 3) = Some 255%Z.
Proof.
  intros m c.
  assert (0 < App.width c) as Hw by repeat constructor.
  assert (0 < App.height c) as Hh by repeat constructor.
  assert (∀ y, y < App.height c →
               is_Some (App.index m (App.nearest y (App.height c) (length m))))
    as Hrows.
  { intros [|[|y]] Hy; [eexists; reflexivity | eexists; reflexivity |].
    exfalso. simpl in Hy. lia. }
  exact (conj eq_refl (conj Hw (conj Hh (conj eq_refl (conj Hrows
           (spectrogram_pixels m _ c eq_refl Hw Hh eq_refl Hrows)))))).
Defined.

(** C8, as stated, fails at the matrix value -79.5 on a one-pixel canvas:
    c is 1.5 and 255 - c is 253.5, and the bytes stored are
    (2, 0, 254, 255). *)
Lemma spectrogram_bytes_are_rounded :
  let cl := App.color (-79.5)%float in
  App.drawSpectrogram (Some [[(-79.5)%float]])
                      (Some (App.mkCanvas 1 1 true [0; 0; 0; 0]%Z))
  = (Some (App.mkCanvas 1 1 true [2; 0; 254; 255]%Z), Ok tt) ∧
  cl = 1.5%float ∧ (255 - cl)%float = 253.5%float ∧
  PrimFloat.eqb (Num.of_nat 2) cl = false ∧
  PrimFloat.eqb (Num.of_nat 254) (255 - cl)%float = false.
Proof. repeat split. Qed.

(** C10. The text handler never propagates an exception: whatever
    [JSON.parse] does on the text, the promise resolves, the player node
    and the warnings are as before, and the canvas is the one the [try]
    block had reached, also when the block threw.  A parse failure leaves
    the canvas untouched; a spectrogram message whose matrix has no rows
    faults at [matrix[0].length], after the canvas was cleared. *)
Theorem text_handler_never_throws (JSON_parse : string -> result App.json)
    (s : string) (st : App.state) :
  App.onmessage JSON_parse (App.Text s) st
  = (App.mkState (App.playerNode st) (App.warnings st)
                 (App.text_body JSON_parse s (App.canvas st)).1,
     App.Resolved) ∧
  (∀ e, JSON_parse s = Throw e →
        App.text_body JSON_parse s (App.canvas st) = (App.canvas st, Throw e)) ∧
  (∀ c, JSON_parse s = Ok (App.JObject (Some "spectrogram"%string) (Some [])) →
        App.canvas st = Some c → App.has_context c = true →
        App.text_body JSON_parse s (App.canvas st)
        = (Some (App.clearRect c), Throw TypeError)).
Proof.
  split; [|split].
  - unfold App.onmessage, App.on_text, try_catch.
    by destruct (App.text_body JSON_parse s (App.canvas st)) as [cv [[]|e]].
  - intros e He. unfold App.text_body. by rewrite He.
  - intros c Hparse Hcv Hctx. unfold App.text_body. rewrite Hparse, Hcv.
    cbn [String.eqb Ascii.eqb Bool.eqb]. unfold App.drawSpectrogram.
    by rewrite Hctx.
Qed.

Lemma text_handler_never_throws_witness :
  let c := App.mkCanvas 2 1 true (replicate 8 7%Z) in
  let st := App.mkState (Some PlayerProcessor.new) [] (Some c) in
  parse_as_spectrogram [] EmptyString
  = Ok (App.JObject (Some "spectrogram"%string) (Some [])) ∧
  App.canvas st = Some c ∧ App.has_context c = true ∧
  App.text_body (parse_as_spectrogram []) EmptyString (App.canvas st)
  = (Some (App.mkCanvas 2 1 true (replicate 8 0%Z)), Throw TypeError) ∧
  App.onmessage (parse_as_spectrogram []) (App.Text EmptyString) st
  = (App.mkState (Some PlayerProcessor.new) []
                 (Some (App.mkCanvas 2 1 true (replicate 8 0%Z))),
     App.Resolved).
Proof.
  intros c st.
  pose proof (text_handler_never_throws (parse_as_spectrogram []) EmptyString st)
    as (Hres & _ & Hzero).
  exact (conj eq_refl (conj eq_refl (conj eq_refl
           (conj (Hzero c eq_refl eq_refl eq_refl) Hres)))).
Defined.

(** ** Further results: the processor under a stream of events *)

Lemma float32_elements_length (n : nat) :
  ∀ ab, length ab = 4 * n → length (TypedArray.float32_elements ab) = n.
Proof.
  induction n as [|n IH]; intros ab Hlen.
  - by destruct ab.
  - destruct ab as [|b0 [|b1 [|b2 [|b3 rest]]]]; simpl in Hlen; try lia.
    simpl. f_equal. apply IH. lia.
Qed.

Lemma float32_elements_app (n : nat) :
  ∀ ab rest, length ab = 4 * n →
    TypedArray.float32_elements (ab ++ rest)
    = TypedArray.float32_elements ab ++ TypedArray.float32_elements rest.
Proof.
  induction n as [|n IH]; intros ab rest Hlen.
  - by destruct ab.
  - destruct ab as [|b0 [|b1 [|b2 [|b3 tl]]]]; simpl in Hlen; try lia.
    simpl. f_equal. apply IH. lia.
Qed.

Lemma aligned_length (ab : list byte) :
  length ab mod 4 = 0 → length ab = 4 * (length ab / 4).
Proof. intros H. by apply Nat.Div0.div_exact. Qed.

Lemma postMessage_buffer (msg : PlayerProcessor.message) (p : PlayerProcessor.t) :
  App.postMessage msg p
  = PlayerProcessor.mk (PlayerProcessor.buffer p ++ accepted msg)
                       (PlayerProcessor.readIndex p).
Proof.
  unfold App.postMessage, PlayerProcessor.onmessage, accepted.
  destruct msg as [buf|].
  - destruct (TypedArray.float32_of_buffer buf) as [samples|e];
      cbn [mbind result_bind].
    + by rewrite append_ok.
    + rewrite app_nil_r. by destruct p.
  - rewrite app_nil_r. by destruct p.
Qed.

Lemma process_tick (outputs : list (list (list float))) (frames channels : nat)
    (p : PlayerProcessor.t) :
  render_request outputs frames channels →
  ∃ out' p',
    PlayerProcessor.process outputs p = Ok (out', p', true) ∧
    played outputs p out' ++ PlayerProcessor.buffer p' = PlayerProcessor.buffer p ∧
    PlayerProcessor.readIndex p' = PlayerProcessor.readIndex p ∧
    length (played outputs p out')
    = if length (PlayerProcessor.buffer p) <? frames * channels then 0
      else frames * channels.
Proof.
  intros Hreq. unfold played.
  rewrite (request_size_of_request _ _ _ Hreq).
  destruct (Nat.ltb_spec (length (PlayerProcessor.buffer p)) (frames * channels))
    as [Hlt|Hge].
  - destruct (request_first_plane _ _ _ Hreq)
      as (out & out0 & Hout & Hout0 & <- & <- & _).
    rewrite (process_eq _ _ _ _ Hout Hout0).
    destruct (Nat.ltb_spec (length (PlayerProcessor.buffer p))
                           (length out0 * length out)); [|lia].
    by eexists _, _.
  - destruct (process_sufficient outputs frames channels p Hreq Hge)
      as (out' & -> & _ & Hinter & _).
    eexists _, _. split; [reflexivity|]. rewrite Hinter. simpl.
    rewrite take_drop, length_take. repeat split; lia.
Qed.

(** X1. No sample is lost, duplicated or reordered: for any interleaving of
    port messages and host-issued ticks, the run does not fault, and the
    samples played so far followed by the samples still buffered are the
    samples buffered at the start followed by all samples received. *)
Theorem sample_conservation (events : list event) (p : PlayerProcessor.t) :
  host_ticks events →
  ∃ s p',
    run events p = Ok (s, p') ∧
    s ++ PlayerProcessor.buffer p' = PlayerProcessor.buffer p ++ received events.
Proof.
  revert p. induction events as [|[msg|outputs] rest IH]; intros p Hhost.
  - exists [], p. by rewrite app_nil_r.
  - apply Forall_cons in Hhost as [_ Hhost].
    destruct (IH (App.postMessage msg p) Hhost) as (s & p' & Hrun & Hcons).
    exists s, p'. split; [done|].
    rewrite Hcons, postMessage_buffer. simpl. by rewrite app_assoc.
  - apply Forall_cons in Hhost as [(frames & channels & Hreq) Hhost].
    destruct (process_tick outputs frames channels p Hreq)
      as (out' & p1 & Hproc & Hplay & _ & _).
    destruct (IH p1 Hhost) as (s & p' & Hrun & Hcons).
    exists (played outputs p out' ++ s), p'. cbn [run received].
    rewrite Hproc. cbn [mbind result_bind]. rewrite Hrun. cbn [mbind result_bind].
    split; [done|]. by rewrite <- app_assoc, Hcons, app_assoc, Hplay.
Qed.

Lemma sample_conservation_witness :
  let events :=
    [Tick [[[9%float]; [9%float]]];
     Message (PlayerProcessor.Pcm [x00; x00; x80; x3f]);
     Tick [[[9%float]; [9%float]]];
     Message (PlayerProcessor.Pcm [x00; x00; x00; x40; x07]);
     Message (PlayerProcessor.Pcm [x00; x00; x00; x40]);
     Tick [[[9%float]; [9%float]]]] in
  host_ticks events ∧
  ∃ s p',
    run events PlayerProcessor.new = Ok (s, p') ∧
    s ++ PlayerProcessor.buffer p'
    = PlayerProcessor.buffer PlayerProcessor.new ++ received events.
Proof.
  intros events.
  assert (host_ticks events) as Hhost.
  { repeat constructor; exists 1, 2; solve_request. }
  exact (conj Hhost (sample_conservation events PlayerProcessor.new Hhost)).
Defined.

(** X2. A matched producer keeps the occupancy constant: when every round
    posts exactly the samples its tick asks for, no tick underruns, the
    buffer is as long after the rounds as before, and as many samples were
    played as received, oldest first. *)
Theorem matched_rounds_keep_occupancy
    (rounds : list (list byte * list (list (list float))))
    (p : PlayerProcessor.t) :
  Forall matched_round rounds →
  ∃ s p',
    run (rounds_events rounds) p = Ok (s, p') ∧
    length (PlayerProcessor.buffer p') = length (PlayerProcessor.buffer p) ∧
    length s = length (received (rounds_events rounds)) ∧
    s = take (length s)
             (PlayerProcessor.buffer p ++ received (rounds_events rounds)).
Proof.
  intros Hall.
  assert (∃ s p',
             run (rounds_events rounds) p = Ok (s, p') ∧
             length (PlayerProcessor.buffer p') = length (PlayerProcessor.buffer p) ∧
             length s = length (received (rounds_events rounds)) ∧
             s ++ PlayerProcessor.buffer p'
             = PlayerProcessor.buffer p ++ received (rounds_events rounds))
    as (s & p' & Hrun & Hlen & Hs & Hcons).
  { revert p. induction Hall as [|[buf outputs] rest Hround _ IH]; intros p.
    - exists [], p. by rewrite app_nil_r.
    - destruct Hround as (frames & channels & Hreq & Hbuf). cbn [fst snd] in Hreq, Hbuf.
      assert (accepted (PlayerProcessor.Pcm buf) = TypedArray.float32_elements buf
              ∧ length (TypedArray.float32_elements buf) = frames * channels)
        as [Hacc Hsamples].
      { split; [|by apply float32_elements_length].
        unfold accepted, TypedArray.float32_of_buffer.
        replace (length buf mod 4) with 0; [done|].
        rewrite Hbuf, Nat.mul_comm. symmetry. apply Nat.Div0.mod_mul. }
      set (p0 := App.postMessage (PlayerProcessor.Pcm buf) p).
      assert (PlayerProcessor.buffer p0
              = PlayerProcessor.buffer p ++ TypedArray.float32_elements buf)
        as Hp0 by (unfold p0; by rewrite postMessage_buffer, Hacc).
      destruct (process_tick outputs frames channels p0 Hreq)
        as (out' & p1 & Hproc & Hplay & _ & Hplen).
      destruct (Nat.ltb_spec (length (PlayerProcessor.buffer p0)) (frames * channels))
        as [Hlt|_]; [rewrite Hp0, length_app in Hlt; lia|].
      destruct (IH p1) as (s & p' & Hrun & Hlen & Hs & Hcons).
      assert (length (PlayerProcessor.buffer p1) = length (PlayerProcessor.buffer p))
        as Hp1.
      { apply (f_equal length) in Hplay.
        rewrite length_app, Hp0, length_app in Hplay. lia. }
      exists (played outputs p0 out' ++ s), p'.
      change (rounds_events ((buf, outputs) :: rest))
        with (Message (PlayerProcessor.Pcm buf) :: Tick outputs :: rounds_events rest).
      cbn [run received]. fold p0.
      rewrite Hproc. cbn [mbind result_bind]. rewrite Hrun. cbn [mbind result_bind].
      split; [done|]. split; [lia|]. split.
      + rewrite !length_app, Hacc. lia.
      + rewrite <- app_assoc, Hcons, (app_assoc _ _ (received _)), Hplay, Hp0, Hacc.
        by rewrite <- app_assoc. }
  exists s, p'. repeat split; try done.
  rewrite <- Hcons. by rewrite take_app_length.
Qed.

Lemma matched_rounds_keep_occupancy_witness :
  let rounds :=
    [([x00; x00; x80; x3f; x00; x00; x00; x40], [[[9%float]; [9%float]]]);
     ([x00; x00; x40; x40], [[[9%float]]])] in
  let p := PlayerProcessor.mk [7%float; 8%float; 9%float] 0 in
  Forall matched_round rounds ∧
  ∃ s p',
    run (rounds_events rounds) p = Ok (s, p') ∧
    length (PlayerProcessor.buffer p') = length (PlayerProcessor.buffer p) ∧
    length s = length (received (rounds_events rounds)) ∧
    s = take (length s)
             (PlayerProcessor.buffer p ++ received (rounds_events rounds)).
Proof.
  intros rounds p.
  assert (Forall matched_round rounds) as Hall.
  { repeat constructor; [exists 1, 2 | exists 1, 1];
      (split; [solve_request | reflexivity]). }
  exact (conj Hall (matched_rounds_keep_occupancy rounds p Hall)).
Defined.

(** ** Further results: one render tick *)

(** X3. A tick never reshapes its output: whenever [process] returns, it
    returns [true], the planes it leaves are as many and each as long as
    the planes of [outputs[0]] it was given, whatever their lengths, and
    [readIndex] is untouched. *)
Theorem process_keeps_shape (outputs : list (list (list float)))
    (p p' : PlayerProcessor.t) (out' : list (list float)) (b : bool) :
  PlayerProcessor.process outputs p = Ok (out', p', b) →
  ∃ out, outputs !! 0 = Some out ∧
         length <$> out' = length <$> out ∧
         PlayerProcessor.readIndex p' = PlayerProcessor.readIndex p ∧
         b = true.
Proof.
  intros Hproc.
  destruct (request_size outputs) as [[frames channels]|] eqn:Hsize.
  - apply request_size_inv in Hsize as (out & out0 & Hout & Hout0 & _ & _).
    rewrite (process_eq _ _ _ _ Hout Hout0) in Hproc.
    exists out. split; [done|].
    destruct (length (PlayerProcessor.buffer p) <? length out0 * length out);
      injection Hproc as <- <- <-.
    + by rewrite silenced_lengths.
    + by rewrite deinterleaved_lengths.
  - by rewrite (process_without_channel _ _ Hsize) in Hproc.
Qed.

Lemma process_keeps_shape_witness :
  let outputs := [[[9%float; 9%float; 9%float]; [9%float]; []]] in
  let p := PlayerProcessor.mk (replicate 10 1%float) 5 in
  let out' := [[1%float; 1%float; 1%float]; [1%float]; []] in
  let p' := PlayerProcessor.mk [1%float] 5 in
  PlayerProcessor.process outputs p = Ok (out', p', true) ∧
  ∃ out, outputs !! 0 = Some out ∧
         length <$> out' = length <$> out ∧
         PlayerProcessor.readIndex p' = PlayerProcessor.readIndex p ∧
         true = true.
Proof.
  intros outputs p out' p'.
  exact (conj eq_refl (process_keeps_shape outputs p p' out' true eq_refl)).
Defined.

Lemma deinterleaved_same_shape (buf : list float) (frames : nat)
    (out1 out2 : list (list float)) :
  Forall (fun plane => length plane = frames) out1 →
  Forall (fun plane => length plane = frames) out2 →
  length out1 = length out2 →
  deinterleaved buf frames out1 = deinterleaved buf frames out2.
Proof.
  intros Hall1 Hall2 Hlen. apply list_eq; intros ch.
  unfold deinterleaved. rewrite !list_lookup_imap, Hlen.
  destruct (out1 !! ch) as [pl1|] eqn:H1; destruct (out2 !! ch) as [pl2|] eqn:H2.
  - simpl. f_equal. apply list_eq; intros f.
    rewrite !filled_lookup.
    rewrite (proj1 (Forall_lookup _ _) Hall1 ch pl1 H1).
    rewrite (proj1 (Forall_lookup _ _) Hall2 ch pl2 H2).
    case_decide; [done|].
    rewrite !lookup_ge_None_2; [done| |].
    + rewrite (proj1 (Forall_lookup _ _) Hall2 ch pl2 H2). lia.
    + rewrite (proj1 (Forall_lookup _ _) Hall1 ch pl1 H1). lia.
  - apply lookup_lt_Some in H1. apply lookup_ge_None_1 in H2. lia.
  - apply lookup_lt_Some in H2. apply lookup_ge_None_1 in H1. lia.
  - done.
Qed.

(** X4. Nothing of what the planes held before a tick survives it: two
    host-issued requests of the same shape give the same planes, processor
    and return value, whatever the planes held. *)
Theorem process_overwrites_planes (outputs1 outputs2 : list (list (list float)))
    (frames channels : nat) (p : PlayerProcessor.t) :
  render_request outputs1 frames channels →
  render_request outputs2 frames channels →
  PlayerProcessor.process outputs1 p = PlayerProcessor.process outputs2 p.
Proof.
  intros (out1 & o1 & Hout1 & Ho1 & Hc1 & Hf1 & Hall1)%request_first_plane
         (out2 & o2 & Hout2 & Ho2 & Hc2 & Hf2 & Hall2)%request_first_plane.
  rewrite (process_eq _ _ _ _ Hout1 Ho1), (process_eq _ _ _ _ Hout2 Ho2).
  rewrite Hc1, Hc2, Hf1, Hf2.
  destruct (length (PlayerProcessor.buffer p) <? frames * channels).
  - by rewrite (silent_planes frames out1), (silent_planes frames out2), Hc1, Hc2.
  - by rewrite (deinterleaved_same_shape _ _ out1 out2) by congruence.
Qed.

Lemma process_overwrites_planes_witness :
  let outputs1 := [[[9%float; 9%float]; [8%float; 8%float]]] in
  let outputs2 := [[[0%float; 0%float]; [0%float; 0%float]]; [[5%float]]] in
  let p := PlayerProcessor.mk [1%float; 2%float; 3%float; 4%float; 5%float] 0 in
  render_request outputs1 2 2 ∧ render_request outputs2 2 2 ∧
  PlayerProcessor.process outputs1 p = PlayerProcessor.process outputs2 p.
Proof.
  intros outputs1 outputs2 p.
  assert (render_request outputs1 2 2) as H1 by solve_request.
  assert (render_request outputs2 2 2) as H2 by solve_request.
  exact (conj H1 (conj H2 (process_overwrites_planes outputs1 outputs2 2 2 p H1 H2))).
Defined.

(** ** Further results: the binary branch under a stream of messages *)

(** X5. The classifier, exactly: a chunk is Unsupported if and only if it
    starts with the two bytes 0x4f 0x50; every other chunk, the empty one
    included, is RawPcm. *)
Theorem classify_unsupported_iff (ab : list byte) :
  App.classify ab = App.Unsupported ↔ ∃ rest, ab = x4f :: x50 :: rest.
Proof.
  unfold App.classify. split.
  - destruct (App.is_opus ab) eqn:Hopus; [intros _|discriminate].
    unfold App.is_opus in Hopus.
    destruct (2 <=? length ab); [|discriminate].
    destruct ab as [|b0 [|b1 rest]]; try discriminate.
    apply String.eqb_eq in Hopus. simpl in Hopus.
    injection Hopus as H0 H1.
    apply (f_equal byte_of_ascii) in H0, H1.
    rewrite byte_of_ascii_of_byte in H0, H1. simpl in H0, H1.
    subst. by eexists.
  - intros [rest ->]. reflexivity.
Qed.

Lemma on_text_state (JSON_parse : string -> result App.json) (s : string)
    (st : App.state) :
  ∃ cv, (App.onmessage JSON_parse (App.Text s) st).1
        = App.mkState (App.playerNode st) (App.warnings st) cv.
Proof.
  unfold App.onmessage, App.on_text.
  destruct (try_catch _ _) as [cv r]. by exists cv.
Qed.

Lemma on_binary_state (JSON_parse : string -> result App.json) (ab : list byte)
    (st : App.state) (node : PlayerProcessor.t) :
  App.playerNode st = Some node →
  (App.onmessage JSON_parse (App.Binary ab) st).1
  = match App.classify ab with
    | App.Unsupported =>
        App.mkState (Some node) (App.warnings st ++ [App.opus_warning]) (App.canvas st)
    | App.RawPcm =>
        if length ab mod 4 =? 0
        then App.mkState
               (Some (PlayerProcessor.mk
                        (PlayerProcessor.buffer node ++ TypedArray.float32_elements ab)
                        (PlayerProcessor.readIndex node)))
               (App.warnings st) (App.canvas st)
        else st
    end.
Proof.
  intros Hnode. unfold App.onmessage, App.on_binary.
  destruct (App.classify ab); [by rewrite Hnode|].
  unfold App.post_pcm, TypedArray.float32_of_buffer.
  destruct (Nat.eqb_spec (length ab mod 4) 0) as [Hmod|Hmod]; [|done].
  rewrite Hnode. cbn [defined mbind result_bind fst].
  rewrite postMessage_buffer. unfold accepted, TypedArray.float32_of_buffer.
  by rewrite Hmod.
Qed.

(** X6. What a stream of WebSocket messages leaves in the frame buffer:
    with a player node in place, after any sequence of text and binary
    messages the buffer is the old buffer followed by the floats of the
    concatenated bytes of the accepted chunks (raw PCM, length a multiple
    of 4), so chunk boundaries do not matter and text, Unsupported and
    rejected chunks leave no trace in it; one warning was added per
    Unsupported chunk. *)
Theorem ingest_stream (JSON_parse : string -> result App.json)
    (msgs : list App.ws_data) (st : App.state) (node : PlayerProcessor.t) :
  App.playerNode st = Some node →
  App.playerNode (deliver JSON_parse msgs st)
  = Some (PlayerProcessor.mk
            (PlayerProcessor.buffer node
               ++ TypedArray.float32_elements (pcm_bytes msgs))
            (PlayerProcessor.readIndex node)) ∧
  App.warnings (deliver JSON_parse msgs st)
  = App.warnings st ++ replicate (opus_chunks msgs) App.opus_warning.
Proof.
  revert st node. induction msgs as [|d rest IH]; intros st node Hnode.
  - simpl. rewrite !app_nil_r. split; [|done]. rewrite Hnode. by destruct node.
  - destruct d as [s|ab|]; cbn [deliver pcm_bytes opus_chunks].
    + destruct (on_text_state JSON_parse s st) as [cv ->].
      by apply (IH (App.mkState _ _ cv) node).
    + rewrite (on_binary_state JSON_parse ab st node Hnode).
      destruct (App.classify ab).
      * destruct (IH (App.mkState (Some node)
                        (App.warnings st ++ [App.opus_warning]) (App.canvas st))
                     node eq_refl) as [-> ->].
        split; [done|]. simpl. by rewrite <- app_assoc.
      * destruct (Nat.eqb_spec (length ab mod 4) 0) as [Hmod|Hmod]; [|by apply IH].
        destruct (IH (App.mkState
                        (Some (PlayerProcessor.mk
                                 (PlayerProcessor.buffer node
                                    ++ TypedArray.float32_elements ab)
                                 (PlayerProcessor.readIndex node)))
                        (App.warnings st) (App.canvas st))
                     _ eq_refl) as [-> ->].
        split; [|done]. simpl.
        rewrite (float32_elements_app _ ab _ (aligned_length ab Hmod)).
        by rewrite <- app_assoc.
    + by apply IH.
Qed.

Lemma ingest_stream_witness :
  let msgs :=
    [App.Binary [x4f; x50; x00; x00];
     App.Text EmptyString;
     App.Binary [x00; x00; x80; x3f];
     App.Binary [x00; x00; x00; x40; x07];
     App.Neither;
     App.Binary [x00; x00; x40; x40; x00; x00; x80; x40]] in
  App.playerNode ready_page = Some PlayerProcessor.new ∧
  App.playerNode (deliver parse_nothing msgs ready_page)
  = Some (PlayerProcessor.mk [1%float; 3%float; 4%float] 0) ∧
  App.warnings (deliver parse_nothing msgs ready_page) = [App.opus_warning].
Proof.
  intros msgs.
  exact (conj eq_refl
           (ingest_stream parse_nothing msgs ready_page PlayerProcessor.new eq_refl)).
Defined.

(** ** Further results: [drawSpectrogram] *)

Lemma for_each_invariant {S} (P : S -> Prop) (body : nat -> S -> result S)
    (idx : list nat) :
  (∀ i s s', body i s = Ok s' → P s → P s') →
  ∀ s s', for_each idx body s = Ok s' → P s → P s'.
Proof.
  intros Hbody. induction idx as [|i rest IH]; intros s s' Hrun Hs.
  - by injection Hrun as <-.
  - cbn [for_each] in Hrun.
    destruct (body i s) as [s1|e] eqn:Hstep; [|discriminate].
    cbn [mbind result_bind] in Hrun. eauto.
Qed.

Lemma put_pixel_length (data : list Z) (i : nat) (c : float) :
  length (App.put_pixel data i c) = length data.
Proof. unfold App.put_pixel. by rewrite !length_insert. Qed.

Lemma draw_rows_length (m : list (list float)) (w h rows cols : nat)
    (data data' : list Z) :
  App.draw_rows m w h rows cols data = Ok data' → length data' = length data.
Proof.
  unfold App.draw_rows. intros Hrun.
  apply (for_each_invariant (fun d => length d = length data) _ _) in Hrun;
    [done| |done].
  intros y d d' Hrow Hd.
  apply (for_each_invariant (fun d => length d = length data) _ _) in Hrow;
    [done| |done].
  intros x e e' Hpix He. unfold App.draw_pixel in Hpix.
  destruct (App.index m (App.nearest y h rows)); [|discriminate].
  cbn [defined mbind result_bind] in Hpix. injection Hpix as <-.
  by rewrite put_pixel_length.
Qed.

Lemma render_length (m : option (list (list float))) (w h : nat) (data : list Z) :
  App.render m w h = Ok data → length data = w * h * 4.
Proof.
  unfold App.render. intros Hr.
  destruct m as [mm|]; [|discriminate]. cbn [defined mbind result_bind] in Hr.
  destruct (mm !! 0) as [row0|]; [|discriminate].
  cbn [defined mbind result_bind] in Hr. unfold App.createImageData in Hr.
  destruct ((w =? 0) || (h =? 0)); [discriminate|].
  cbn [mbind result_bind] in Hr.
  apply draw_rows_length in Hr. by rewrite Hr, length_replicate.
Qed.

Lemma render_ok_rows (m : option (list (list float))) (w h : nat) (data : list Z) :
  App.render m w h = Ok data →
  0 < w ∧ 0 < h ∧
  ∃ mm row0, m = Some mm ∧ mm !! 0 = Some row0 ∧
             ∀ y, y < h → is_Some (App.index mm (App.nearest y h (length mm))).
Proof.
  unfold App.render. intros Hr.
  destruct m as [mm|]; [|discriminate]. cbn [defined mbind result_bind] in Hr.
  destruct (mm !! 0) as [row0|] eqn:Hrow0; [|discriminate].
  cbn [defined mbind result_bind] in Hr. unfold App.createImageData in Hr.
  destruct w as [|w]; [discriminate|]. destruct h as [|h]; [discriminate|].
  cbn [Nat.eqb orb mbind result_bind] in Hr.
  split; [lia|]. split; [lia|]. exists mm, row0.
  split; [done|]. split; [done|]. intros y Hy.
  destruct (App.index mm (App.nearest y (S h) (length mm))) as [line|] eqn:Hline;
    [by eexists|].
  unfold App.draw_rows in Hr.
  rewrite rows_loop_fault in Hr; [discriminate|lia|].
  exists y. split; [lia|done].
Qed.

Lemma render_succeeds (mm : list (list float)) (row0 : list float) (w h : nat) :
  mm !! 0 = Some row0 → 0 < w → 0 < h →
  (∀ y, y < h → is_Some (App.index mm (App.nearest y h (length mm)))) →
  App.render (Some mm) w h
  = Ok (concat ((fun y =>
                   row_pixels (default [] (App.index mm (App.nearest y h (length mm))))
                              w (length row0)) <$> seq 0 h)).
Proof.
  intros Hrow0 Hw Hh Hrows.
  apply (render_image mm row0 w h
           (fun y => default [] (App.index mm (App.nearest y h (length mm)))));
    try done.
  intros y Hy. by destruct (Hrows y Hy) as [line ->].
Qed.

Lemma to_uint8_clamp_range (x : float) :
  (0 ≤ Num.to_uint8_clamp x ≤ 255)%Z.
Proof.
  unfold Num.to_uint8_clamp.
  destruct (Prim2SF x) as [s|s| |s m e]; try lia.
  - destruct s; lia.
  - destruct s; [lia|].
    destruct (0 <=? e)%Z eqn:He.
    + apply Z.leb_le in He.
      assert (0 < 2 ^ e)%Z by (apply Z.pow_pos_nonneg; lia). nia.
    + apply Z.leb_gt in He.
      assert (0 < 2 ^ (- e))%Z as Hd by (apply Z.pow_pos_nonneg; lia).
      assert (0 ≤ Z.pos m / 2 ^ (- e))%Z by (apply Z.div_pos; lia).
      repeat match goal with |- context [if ?b then _ else _] => destruct b end;
        lia.
Qed.

(** X7. No state is carried between frames: drawing a matrix after another
    one leaves the canvas, and ends, exactly as drawing it alone; in
    particular drawing the same matrix twice changes nothing the second
    time. *)
Theorem draw_forgets_previous_frame (m1 m2 : option (list (list float)))
    (cv : option App.Canvas) :
  App.drawSpectrogram m2 (App.drawSpectrogram m1 cv).1
  = App.drawSpectrogram m2 cv.
Proof.
  destruct cv as [c|]; [|done].
  unfold App.drawSpectrogram at 2.
  destruct (App.has_context c) eqn:Hctx; [|done].
  destruct (App.render m1 (App.width c) (App.height c)) as [data|e];
    cbn [fst]; unfold App.drawSpectrogram, App.putImageData, App.clearRect;
    cbn [App.width App.height App.has_context]; by rewrite Hctx.
Qed.

(** X8. The canvas keeps its geometry: a draw leaves a canvas of the same
    width, height and context; when there is a context its bitmap has
    exactly [width * height * 4] bytes afterwards, whether the draw
    succeeded or faulted after the clear, and when there is none the
    canvas is left as it was. *)
Theorem draw_keeps_geometry (m : option (list (list float))) (c : App.Canvas) :
  ∃ c' r,
    App.drawSpectrogram m (Some c) = (Some c', r) ∧
    App.width c' = App.width c ∧ App.height c' = App.height c ∧
    App.has_context c' = App.has_context c ∧
    (if App.has_context c
     then length (App.bitmap c') = App.width c * App.height c * 4
     else c' = c ∧ r = Throw TypeError).
Proof.
  unfold App.drawSpectrogram.
  destruct (App.has_context c) eqn:Hctx.
  - destruct (App.render m (App.width c) (App.height c)) as [data|e] eqn:Hr;
      eexists _, _; (split; [reflexivity|]); cbn; repeat split; try done.
    + by apply render_length in Hr.
    + by rewrite length_replicate.
  - by eexists _, _.
Qed.

(** X9. When a draw succeeds, exactly: on an existing canvas the call
    returns normally if and only if the canvas has a 2-D context and a
    non-zero width and height, the matrix is there with a first row, and
    every canvas row maps to an existing matrix row. *)
Theorem draw_succeeds_iff (m : option (list (list float))) (c : App.Canvas) :
  (App.drawSpectrogram m (Some c)).2 = Ok tt ↔
  App.has_context c = true ∧ 0 < App.width c ∧ 0 < App.height c ∧
  ∃ mm row0,
    m = Some mm ∧ mm !! 0 = Some row0 ∧
    ∀ y, y < App.height c →
         is_Some (App.index mm (App.nearest y (App.height c) (length mm))).
Proof.
  unfold App.drawSpectrogram. split.
  - destruct (App.has_context c); [|discriminate].
    destruct (App.render m (App.width c) (App.height c)) as [data|e] eqn:Hr;
      [intros _|discriminate].
    split; [done|]. by apply render_ok_rows in Hr.
  - intros (-> & Hw & Hh & mm & row0 & -> & Hrow0 & Hrows).
    by rewrite (render_succeeds mm row0 _ _ Hrow0 Hw Hh Hrows).
Qed.

Lemma drawn_pixel (m : option (list (list float))) (c c' : App.Canvas)
    (x y k : nat) :
  App.drawSpectrogram m (Some c) = (Some c', Ok tt) →
  x < App.width c → y < App.height c → k < 4 →
  ∃ mm row0 line,
    m = Some mm ∧ mm !! 0 = Some row0 ∧
    App.index mm (App.nearest y (App.height c) (length mm)) = Some line ∧
    App.bitmap c' !! ((y * App.width c + x) * 4 + k)
    = rgba (pixel_color line (App.width c) (length row0) x) !! k.
Proof.
  intros Hdraw Hx Hy Hk. unfold App.drawSpectrogram in Hdraw.
  destruct (App.has_context c); [|discriminate].
  destruct (App.render m (App.width c) (App.height c)) as [data|e] eqn:Hr;
    [|discriminate].
  injection Hdraw as <-.
  pose proof (render_ok_rows _ _ _ _ Hr)
    as (Hw & Hh & mm & row0 & -> & Hrow0 & Hrows).
  rewrite (render_succeeds mm row0 _ _ Hrow0 Hw Hh Hrows) in Hr.
  injection Hr as <-.
  destruct (Hrows y Hy) as [line Hline].
  exists mm, row0, line. repeat split; try done.
  cbn [App.putImageData App.bitmap].
  rewrite (image_lookup _ _ _ _ x y k Hx Hy Hk). by rewrite Hline.
Qed.

(** X10. A drawn image is opaque and has no green: after a draw that
    returned normally, every pixel of the canvas has green 0 and alpha 255,
    and red and blue bytes between 0 and 255. *)
Theorem drawn_image_is_opaque (m : option (list (list float)))
    (c c' : App.Canvas) (x y : nat) :
  App.drawSpectrogram m (Some c) = (Some c', Ok tt) →
  x < App.width c → y < App.height c →
  let i := (y * App.width c + x) * 4 in
  App.bitmap c' !! (i + 1) = Some 0%Z ∧
  App.bitmap c' !! (i + 3) = Some 255%Z ∧
  ∃ r b, App.bitmap c' !! i = Some r ∧ App.bitmap c' !! (i + 2) = Some b ∧
         (0 ≤ r ≤ 255)%Z ∧ (0 ≤ b ≤ 255)%Z.
Proof.
  intros Hdraw Hx Hy i.
  destruct (drawn_pixel m c c' x y 0 Hdraw Hx Hy) as (mm & row0 & line & -> & Hrow0 & Hline & H0); [lia|].
  destruct (drawn_pixel _ c c' x y 1 Hdraw Hx Hy) as (? & ? & ? & [= <-] & Hr1 & Hl1 & H1); [lia|].
  destruct (drawn_pixel _ c c' x y 2 Hdraw Hx Hy) as (? & ? & ? & [= <-] & Hr2 & Hl2 & H2); [lia|].
  destruct (drawn_pixel _ c c' x y 3 Hdraw Hx Hy) as (? & ? & ? & [= <-] & Hr3 & Hl3 & H3); [lia|].
  fold i in H0, H1, H2, H3. rewrite Nat.add_0_r in H0.
  rewrite H0, H1, H2, H3. repeat split.
  eexists _, _. repeat split; apply to_uint8_clamp_range.
Qed.

(** X11. A missing matrix entry is painted opaque black: after a draw that
    returned normally, a pixel whose column index names no entry of its
    matrix row (a row shorter than the first one, an empty first row) holds
    the bytes (0, 0, 0, 255). *)
Theorem missing_entry_is_black (mm : list (list float)) (row0 line : list float)
    (c c' : App.Canvas) (x y : nat) :
  App.drawSpectrogram (Some mm) (Some c) = (Some c', Ok tt) →
  mm !! 0 = Some row0 →
  x < App.width c → y < App.height c →
  App.index mm (App.nearest y (App.height c) (length mm)) = Some line →
  App.index line (App.nearest x (App.width c) (length row0)) = None →
  let i := (y * App.width c + x) * 4 in
  App.bitmap c' !! i = Some 0%Z ∧ App.bitmap c' !! (i + 1) = Some 0%Z ∧
  App.bitmap c' !! (i + 2) = Some 0%Z ∧ App.bitmap c' !! (i + 3) = Some 255%Z.
Proof.
  intros Hdraw Hrow0 Hx Hy Hline Hnone i. subst i.
  assert (∀ k, k < 4 →
               App.bitmap c' !! ((y * App.width c + x) * 4 + k)
               = rgba (App.color PrimFloat.nan) !! k) as Hpix.
  { intros k Hk.
    destruct (drawn_pixel _ c c' x y k Hdraw Hx Hy Hk)
      as (? & r0 & l & [= <-] & Hr & Hl & ->).
    rewrite Hrow0 in Hr. injection Hr as <-.
    rewrite Hline in Hl. injection Hl as <-.
    unfold pixel_color. by rewrite Hnone. }
  rewrite <- (Nat.add_0_r ((y * App.width c + x) * 4)) at 1.
  rewrite !Hpix by lia. repeat split.
Qed.

Lemma drawn_image_is_opaque_witness :
  let m := Some [[(-80)%float; (-79.5)%float]; [5%float; 0%float]] in
  let c := App.mkCanvas 2 2 true (replicate 16 7%Z) in
  let c' := App.mkCanvas 2 2 true
              [0; 0; 255; 255; 2; 0; 254; 255; 255; 0; 0; 255; 240; 0; 15; 255]%Z in
  App.drawSpectrogram m (Some c) = (Some c', Ok tt) ∧
  1 < App.width c ∧ 0 < App.height c ∧
  App.bitmap c' !! 5 = Some 0%Z ∧
  App.bitmap c' !! 7 = Some 255%Z ∧
  ∃ r b, App.bitmap c' !! 4 = Some r ∧ App.bitmap c' !! 6 = Some b ∧
         (0 ≤ r ≤ 255)%Z ∧ (0 ≤ b ≤ 255)%Z.
Proof.
  intros m c c'.
  assert (1 < App.width c) as Hx by repeat constructor.
  assert (0 < App.height c) as Hy by repeat constructor.
  exact (conj eq_refl (conj Hx (conj Hy
           (drawn_image_is_opaque m c c' 1 0 eq_refl Hx Hy)))).
Defined.

Lemma missing_entry_is_black_witness :
  let mm := [[1%float; 2%float]; [3%float]] in
  let c := App.mkCanvas 2 2 true (replicate 16 7%Z) in
  let c' := App.mkCanvas 2 2 true
              [243; 0; 12; 255; 246; 0; 9; 255; 249; 0; 6; 255; 0; 0; 0; 255]%Z in
  App.drawSpectrogram (Some mm) (Some c) = (Some c', Ok tt) ∧
  mm !! 0 = Some [1%float; 2%float] ∧
  1 < App.width c ∧ 1 < App.height c ∧
  App.index mm (App.nearest 1 (App.height c) (length mm)) = Some [3%float] ∧
  App.index [3%float] (App.nearest 1 (App.width c) 2) = None ∧
  App.bitmap c' !! 12 = Some 0%Z ∧ App.bitmap c' !! 13 = Some 0%Z ∧
  App.bitmap c' !! 14 = Some 0%Z ∧ App.bitmap c' !! 15 = Some 255%Z.
Proof.
  intros mm c c'.
  assert (1 < App.width c) as Hx by repeat constructor.
  assert (1 < App.height c) as Hy by repeat constructor.
  exact (conj eq_refl (conj eq_refl (conj Hx (conj Hy (conj eq_refl (conj eq_refl
           (missing_entry_is_black mm _ _ c c' 1 1
              eq_refl eq_refl Hx Hy eq_refl eq_refl))))))).
Defined.

(** ** Further results: start-up and the socket's life cycle *)

(** X12. Reconnects: over any sequence of socket events, when the page has
    the "conn" status element every close schedules exactly one
    [startWS] after 1000 ms and nothing else schedules one; when the page
    has no such element the close handler faults before [setTimeout], so no
    reconnect is ever scheduled.  No event handler creates a socket. *)
Theorem reconnect_scheduling (JSON_parse : string -> result App.json)
    (evs : list Page.ws_event) (pg : Page.t) :
  Page.reconnects (Page.handle_all JSON_parse evs pg)
  = Page.reconnects pg
      ++ match Page.conn pg with
         | Some _ => replicate (Page.closes evs) 1000
         | None => []
         end ∧
  Page.sockets (Page.handle_all JSON_parse evs pg) = Page.sockets pg.
Proof.
  revert pg. induction evs as [|ev rest IH]; intros pg.
  - simpl. split; [|done]. destruct (Page.conn pg); by rewrite app_nil_r.
  - unfold Page.handle_all in *. cbn [foldl].
    destruct (IH (Page.handle JSON_parse ev pg)) as [-> ->].
    destruct ev; cbn [Page.handle Page.closes]; unfold Page.onopen, Page.onclose;
      destruct (Page.conn pg) as [txt|] eqn:Hc; cbn; rewrite ?Hc; try done.
    split; [|done]. by rewrite <- app_assoc.
Qed.

(** X13. Reconnecting does not reset the audio: open, close and error
    events leave the player node, the warnings and the canvas alone, so
    after any sequence of socket events the page state is the one the
    incoming messages alone produce, across any number of reconnects. *)
Theorem lifecycle_keeps_audio (JSON_parse : string -> result App.json)
    (evs : list Page.ws_event) (pg : Page.t) :
  Page.app (Page.handle_all JSON_parse evs pg)
  = deliver JSON_parse (Page.incoming evs) (Page.app pg).
Proof.
  revert pg. induction evs as [|ev rest IH]; intros pg; [done|].
  unfold Page.handle_all in *. cbn [foldl]. rewrite IH.
  destruct ev; cbn [Page.handle Page.incoming deliver]; try done;
    unfold Page.onopen, Page.onclose; by destruct (Page.conn pg).
Qed.

(** X14. What start-up decides for the audio: from the page before "load",
    if no [AudioContext] can be constructed the listener rejects and no
    socket is ever created; otherwise exactly one socket is created, and an
    aligned raw PCM chunk that arrives next is buffered from an empty frame
    buffer when the worklet module loaded, and rejected with a TypeError,
    leaving the page as it was, when the module failed to load. *)
Theorem load_decides_audio (JSON_parse : string -> result App.json)
    (env : Page.audio_env) (conn_text : option string) (cv : option App.Canvas)
    (ab : list byte) :
  App.classify ab = App.RawPcm →
  length ab mod 4 = 0 →
  let loaded := Page.on_load env (Page.initial conn_text cv) in
  let next := App.onmessage JSON_parse (App.Binary ab) (Page.app loaded.1) in
  if Page.has_AudioContext env then
    loaded.2 = App.Resolved ∧ Page.sockets loaded.1 = 1 ∧
    if Page.module_loads env then
      next = (App.mkState
                (Some (PlayerProcessor.mk (TypedArray.float32_elements ab) 0))
                [] cv,
              App.Resolved)
    else
      Page.console loaded.1 = [Page.WorkletUnavailable] ∧
      next = (Page.app loaded.1, App.Rejected TypeError)
  else
    loaded = (Page.initial conn_text cv, App.Rejected TypeError).
Proof.
  intros Hclass Hmod loaded next. subst loaded next.
  destruct env as [[] []]; cbn; try done; repeat split;
    rewrite ?(surjective_pairing (App.onmessage _ _ _));
    unfold App.onmessage, App.on_binary; rewrite Hclass;
    unfold App.post_pcm, TypedArray.float32_of_buffer; rewrite Hmod;
    try done.
  cbn [Nat.eqb mbind result_bind defined App.playerNode App.warnings App.canvas].
  rewrite postMessage_buffer. unfold accepted, TypedArray.float32_of_buffer.
  by rewrite Hmod.
Qed.

Lemma load_decides_audio_witness :
  let ab := [x00; x00; x80; x3f] in
  let env := Page.mkEnv true false in
  let loaded := Page.on_load env (Page.initial (Some "..."%string) None) in
  App.classify ab = App.RawPcm ∧
  length ab mod 4 = 0 ∧
  loaded.2 = App.Resolved ∧ Page.sockets loaded.1 = 1 ∧
  Page.console loaded.1 = [Page.WorkletUnavailable] ∧
  App.onmessage parse_nothing (App.Binary ab) (Page.app loaded.1)
  = (Page.app loaded.1, App.Rejected TypeError).
Proof.
  intros ab env loaded.
  exact (conj eq_refl (conj eq_refl
           (load_decides_audio parse_nothing env (Some "..."%string) None ab
              eq_refl eq_refl))).
Defined.
